(** * convo-viewer: the conversation view and the task list, embedded from the
    TypeScript sources

    [ConversationView] embeds the derived values of the React component of
    the same name (src/unnamed/part_002: [normalizeContent],
    [toolUsesMissingResults], [existingSummaryIds], [existingTruncationIds],
    [hiddenCount], [filteredMessages]).  [App] embeds the top-level component
    (src/unnamed/part_001, the version of [App] that polls the task list):
    its state, the updater its task-list poll passes to [setTasks], and the
    code that runs when a fetch settles.

    Numbers that the code only subtracts and compares ([ts], [timestamp])
    are integers here.  Optional properties are options; what the code
    tests by truthiness is tested by [Js.truthy_string] and
    [Js.truthy_bool]. *)

From Stdlib Require Import ZArith.
From stdpp Require Import base option list sorting strings gmap.

Local Open Scope string_scope.
Local Open Scope list_scope.
Set Warnings "-register-all,-clear-no-such-hyp".

(** * The JavaScript the sources rely on *)
Module Js.

(** A thrown exception.  The only one the modelled code can meet is the
    [TypeError] of a failed conversion to a primitive. *)
Inductive JsError : Type := TypeError.

Inductive Exc (A : Type) : Type :=
| Ok (a : A)
| Throw (e : JsError).
Arguments Ok {A} a.
Arguments Throw {A} e.

Definition bind {A B : Type} (m : Exc A) (k : A → Exc B) : Exc B :=
  match m with
  | Ok a => k a
  | Throw e => Throw e
  end.

Notation "x <- m ;; k" := (bind m (λ x, k))
  (at level 100, m at next level, right associativity).

(** What [JSON.parse] (and [Response.json]) can produce.  A number is kept
    as its rendering by [Number.prototype.toString], which is all that the
    modelled code reads of it. *)
Inductive Json : Type :=
| JNull
| JBool (b : bool)
| JNumber (shown : string)
| JString (s : string)
| JArray (items : list Json)
| JObject (props : list (string * Json)).

(** Truthiness of an optional string property [o.p]: [undefined] and the
    empty string are falsy. *)
Definition truthy_string (o : option string) : bool :=
  match o with
  | Some s => negb (String.eqb s "")
  | None => false
  end.

(** Truthiness of an optional boolean property. *)
Definition truthy_bool (o : option bool) : bool :=
  match o with
  | Some b => b
  | None => false
  end.

(** [o.p && set.has(o.p)], read as a condition. *)
Definition and_has (p : option string) (set : gset string) : bool :=
  match p with
  | Some s => negb (String.eqb s "") && bool_decide (s ∈ set)
  | None => false
  end.

(** [Array.prototype.forEach] with the element's index, threading the state
    the callback mutates; [i] is the index of the head of [l]. *)
Fixpoint forEach_from {A St : Type} (f : St → A → nat → St) (i : nat) (l : list A) (s : St) : St :=
  match l with
  | [] => s
  | x :: l' => forEach_from f (S i) l' (f s x i)
  end.

Definition forEach {A St : Type} (f : St → A → nat → St) (l : list A) (s : St) : St :=
  forEach_from f 0 l s.

(** The same loop when the callback can throw: the first exception leaves
    the loop. *)
Fixpoint forEachM_from {A St : Type} (f : St → A → nat → Exc St) (i : nat) (l : list A) (s : St) : Exc St :=
  match l with
  | [] => Ok s
  | x :: l' => bind (f s x i) (forEachM_from f (S i) l')
  end.

Definition forEachM {A St : Type} (f : St → A → nat → Exc St) (l : list A) (s : St) : Exc St :=
  forEachM_from f 0 l s.

(** [Array.prototype.sort(compareFn)].  The sort is stable (ECMAScript 2019),
    so for a comparator that orders its arguments consistently the result is
    the one stable arrangement, whatever the engine's algorithm; it is
    computed here by insertion from the right, an element going before the
    first one it does not compare greater than ([compareFn x y <= 0]). *)
Section Sort.
Context {A : Type} (compareFn : A → A → Z).

Fixpoint sort_insert (x : A) (l : list A) : list A :=
  match l with
  | [] => [x]
  | y :: l' => if (compareFn x y <=? 0)%Z then x :: l else y :: sort_insert x l'
  end.

Definition sort (l : list A) : list A := foldr sort_insert [] l.

End Sort.

End Js.

(** * ConversationView.tsx *)
Module ConversationView.
Import Js.

(** [interface ContentBlock] *)
Module ContentBlock.
Record t : Type := mk {
  type : string;
  text : option string;
  id : option string;
  name : option string;
  input : option (list (string * Json));
  tool_use_id : option string;
  content : option string;
  is_error : option bool;
  summary : option (list string)
}.
End ContentBlock.
Abbreviation ContentBlock := ContentBlock.t.

(** The block [{ type: 'text', text: s }]. *)
Definition text_block (s : string) : ContentBlock :=
  ContentBlock.mk "text" (Some s) None None None None None None None.

(** A value that is neither a string nor an array. *)
Inductive Other : Type :=
| OUndefined
| ONull
| OBool (b : bool)
| ONumber (shown : string)
| OObject (props : list (string * Json)).

(** The value of a message's [content]: the declared
    [ContentBlock[] | string], and whatever else the JSON held, which
    [normalizeContent] tests for. *)
Inductive Content : Type :=
| CString (s : string)
| CArray (blocks : list ContentBlock)
| COther (v : Other).

Inductive Role : Type := user | assistant.

(** [interface Message] *)
Module Message.
Record t : Type := mk {
  role : Role;
  content : Content;
  ts : Z;
  isSummary : option bool;
  condenseId : option string;
  condenseParent : option string;
  isTruncationMarker : option bool;
  truncationId : option string;
  truncationParent : option string
}.
End Message.
Abbreviation Message := Message.t.

(** Whether an object has an own property of that name. *)
Definition hasOwn (key : string) (props : list (string * Json)) : bool :=
  existsb (λ p, String.eqb (fst p) key) props.

(** [String(v)] on a value that is neither a string nor an array.  For an
    object the conversion calls its [toString]; the inherited one answers
    ["[object Object]"].  An own [toString] property of a parsed object is
    never a function, so it is passed over, the inherited [valueOf] hands
    back the object itself, and the conversion ends in a [TypeError]. *)
Definition String_ (v : Other) : Exc string :=
  match v with
  | OUndefined => Ok "undefined"
  | ONull => Ok "null"
  | OBool true => Ok "true"
  | OBool false => Ok "false"
  | ONumber shown => Ok shown
  | OObject props =>
      if hasOwn "toString" props then Throw TypeError else Ok "[object Object]"
  end.

Definition normalizeContent (content : Content) : Exc (list ContentBlock) :=
  match content with
  | CString s => Ok [text_block s]
  | COther v => s <- String_ v ;; Ok [text_block s]
  | CArray blocks => Ok blocks
  end.

(** ** toolUsesMissingResults *)

Record Position : Type := { messageIndex : nat; blockIndex : nat }.

(** The two collections the scan fills. *)
Record Scan : Type := {
  toolResultIds : gset string;
  toolUsePositions : gmap string Position
}.

Definition visitBlock (messageIndex : nat) (acc : Scan) (block : ContentBlock) (blockIndex : nat) : Scan :=
  let acc :=
    match ContentBlock.tool_use_id block with
    | Some tool_use_id =>
        if String.eqb (ContentBlock.type block) "tool_result" && negb (String.eqb tool_use_id "")
        then {| toolResultIds := {[ tool_use_id ]} ∪ toolResultIds acc;
                toolUsePositions := toolUsePositions acc |}
        else acc
    | None => acc
    end in
  match ContentBlock.id block with
  | Some id =>
      if String.eqb (ContentBlock.type block) "tool_use" && negb (String.eqb id "")
      then {| toolResultIds := toolResultIds acc;
              toolUsePositions :=
                <[ id := {| messageIndex := messageIndex; blockIndex := blockIndex |} ]>
                  (toolUsePositions acc) |}
      else acc
  | None => acc
  end.

Definition visitMessage (acc : Scan) (message : Message) (messageIndex : nat) : Exc Scan :=
  blocks <- normalizeContent (Message.content message) ;;
  Ok (forEach (visitBlock messageIndex) blocks acc).

Definition scanMessages (messages : list Message) : Exc Scan :=
  forEachM visitMessage messages {| toolResultIds := ∅; toolUsePositions := ∅ |}.

(** The second loop, over the entries of [toolUsePositions]. *)
Definition collectMissing (lastMessageIndex : Z) (scan : Scan) : gset string :=
  map_fold
    (λ toolUseId position missingResults,
       if negb (bool_decide (toolUseId ∈ toolResultIds scan))
       then if (Z.of_nat (messageIndex position) <? lastMessageIndex)%Z
            then {[ toolUseId ]} ∪ missingResults
            else missingResults
       else missingResults)
    ∅ (toolUsePositions scan).

Definition toolUsesMissingResults (messages : list Message) : Exc (gset string) :=
  scan <- scanMessages messages ;;
  Ok (collectMissing (Z.of_nat (length messages) - 1) scan).

(** ** Condensed message filtering *)

Definition existingSummaryIds (messages : list Message) : gset string :=
  list_to_set
    (omap Message.condenseId
       (List.filter (λ m, truthy_bool (Message.isSummary m) && truthy_string (Message.condenseId m))
          messages)).

Definition existingTruncationIds (messages : list Message) : gset string :=
  list_to_set
    (omap Message.truncationId
       (List.filter (λ m, truthy_bool (Message.isTruncationMarker m) && truthy_string (Message.truncationId m))
          messages)).

(** The callback of the filter in [hiddenCount]. *)
Definition counted (messages : list Message) (m : Message) : bool :=
  and_has (Message.condenseParent m) (existingSummaryIds messages)
  || and_has (Message.truncationParent m) (existingTruncationIds messages).

(** The callback of the filter in [filteredMessages]. *)
Definition shown (messages : list Message) (m : Message) : bool :=
  if and_has (Message.condenseParent m) (existingSummaryIds messages) then false
  else if and_has (Message.truncationParent m) (existingTruncationIds messages) then false
  else true.

Definition hiddenCount (messages : list Message) : nat :=
  List.length (List.filter (counted messages) messages).

Definition filteredMessages (filterCondensed : bool) (messages : list Message) : list Message :=
  if negb filterCondensed then messages
  else List.filter (shown messages) messages.

(** What one render of the component hands to its markup. *)
Record Rendered : Type := {
  shownMessages : list Message;
  hiddenBadge : nat;
  missingResults : Exc (gset string)
}.

Definition render (messages : list Message) (filterCondensed : bool) : Rendered :=
  {| shownMessages := filteredMessages filterCondensed messages;
     hiddenBadge := hiddenCount messages;
     missingResults := toolUsesMissingResults messages |}.

End ConversationView.

(** * App.tsx *)
Module App.
Import Js.

(** [interface Task] *)
Module Task.
Record t : Type := mk {
  id : string;
  timestamp : Z;
  firstMessage : string
}.
End Task.
Abbreviation Task := Task.t.

Abbreviation Message := ConversationView.Message.t.

Inductive Source : Type := nightly | production.

(** ** The updater of the task-list poll

    [(a, b) => b.timestamp - a.timestamp] *)
Definition byTimestampDesc (a b : Task) : Z := (Task.timestamp b - Task.timestamp a)%Z.

(** [prevTask => { const updated = data.find(...); return updated ? {...} : prevTask }] *)
Definition refresh (data : list Task) (prevTask : Task) : Task :=
  match find (λ t, String.eqb (Task.id t) (Task.id prevTask)) data with
  | Some updated =>
      {| Task.id := Task.id prevTask;
         Task.timestamp := Task.timestamp updated;
         Task.firstMessage := Task.firstMessage prevTask |}
  | None => prevTask
  end.

(** [prevTasks => { ... }], the function handed to [setTasks] with the
    polled [data]. *)
Definition reconcile (prevTasks data : list Task) : list Task :=
  let existingIds : gset string := list_to_set (map Task.id prevTasks) in
  let newTasks := List.filter (λ t, negb (bool_decide (Task.id t ∈ existingIds))) data in
  if (List.length newTasks =? 0)%nat then
    let updatedTasks := map (refresh data) prevTasks in
    sort byTimestampDesc updatedTasks
  else
    let mergedTasks := (newTasks ++ prevTasks)%list in
    sort byTimestampDesc mergedTasks.

(** ** The component's state and its fetches *)

Record State : Type := {
  source : Source;
  tasks : list Task;
  selectedTask : option string;
  conversation : option (list Message);
  loadingTasks : bool;
  loadingConversation : bool;
  error : option string
}.

(** How a [fetch] followed by [res.json()] ends: [fetch] throws, or there
    is a response with its status and, unless [res.json()] throws, the
    parsed body. *)
Inductive Fetched (A : Type) : Type :=
| Rejected
| Responded (status : nat) (body : option A).
Arguments Rejected {A}.
Arguments Responded {A} status body.

(** [res.ok] *)
Definition ok (status : nat) : bool := (200 <=? status)%nat && (status <=? 299)%nat.

(** A fetch that has been issued and not settled, with the variables its
    continuation closed over. *)
Inductive Request : Type :=
| TasksPoll (source : Source)
| ConversationPoll (source : Source) (selectedTask : string)
| LoadTasks (source : Source)
| LoadConversation (source : Source) (taskId : string).

Record World : Type := {
  state : State;
  pending : list Request
}.

Definition issue (r : Request) (st : State) (pending : list Request) : World :=
  {| state := st; pending := (pending ++ [r])%list |}.

(** [loadTasks()] up to its [await]. *)
Definition loadTasks_start (st : State) : State :=
  {| source := source st;
     tasks := tasks st;
     selectedTask := None;
     conversation := None;
     loadingTasks := true;
     loadingConversation := loadingConversation st;
     error := None |}.

(** [loadTasks()] from its [await] on. *)
Definition loadTasks_resume (r : Fetched (list Task)) (st : State) : State :=
  match r with
  | Responded status (Some data) =>
      if ok status then
        {| source := source st; tasks := data; selectedTask := selectedTask st;
           conversation := conversation st; loadingTasks := false;
           loadingConversation := loadingConversation st; error := error st |}
      else
        {| source := source st; tasks := tasks st; selectedTask := selectedTask st;
           conversation := conversation st; loadingTasks := false;
           loadingConversation := loadingConversation st;
           error := Some "Failed to load tasks. Make sure the server is running." |}
  | _ =>
      {| source := source st; tasks := tasks st; selectedTask := selectedTask st;
         conversation := conversation st; loadingTasks := false;
         loadingConversation := loadingConversation st;
         error := Some "Failed to load tasks. Make sure the server is running." |}
  end.

(** [loadConversation(taskId)] up to its [await]; [None] when the guard on
    [loadingConversation] returns at once. *)
Definition loadConversation_start (taskId : string) (st : State) : option State :=
  if loadingConversation st then None
  else Some
    {| source := source st; tasks := tasks st;
       selectedTask := Some taskId;
       conversation := None;
       loadingTasks := loadingTasks st;
       loadingConversation := true;
       error := None |}.

(** The [catch] of [loadConversation], then its [finally]. *)
Definition loadConversation_failed (st : State) : State :=
  {| source := source st; tasks := tasks st;
     selectedTask := None;
     conversation := conversation st;
     loadingTasks := loadingTasks st;
     loadingConversation := false;
     error := Some "Failed to load conversation" |}.

(** [loadConversation(taskId)] from its [await] on.  The 404 branch calls
    [loadTasks()], which issues a fetch of its own. *)
Definition loadConversation_resume (source : Source) (taskId : string)
    (r : Fetched (list Message)) (st : State) (pending : list Request) : World :=
  match r with
  | Rejected => {| state := loadConversation_failed st; pending := pending |}
  | Responded status body =>
      if negb (ok status) then
        if (status =? 404)%nat then
          let st1 :=
            {| source := App.source st; tasks := tasks st; selectedTask := None;
               conversation := conversation st; loadingTasks := loadingTasks st;
               loadingConversation := loadingConversation st;
               error := Some "Conversation not found. The task may have been deleted." |} in
          let st2 := loadTasks_start st1 in
          issue (LoadTasks source)
            {| source := App.source st2; tasks := tasks st2; selectedTask := selectedTask st2;
               conversation := conversation st2; loadingTasks := loadingTasks st2;
               loadingConversation := false; error := error st2 |}
            pending
        else {| state := loadConversation_failed st; pending := pending |}
      else
        match body with
        | None => {| state := loadConversation_failed st; pending := pending |}
        | Some data =>
            {| state :=
                 {| source := App.source st; tasks := tasks st; selectedTask := selectedTask st;
                    conversation := Some data;
                    loadingTasks := loadingTasks st;
                    loadingConversation := false;
                    error := error st |};
               pending := pending |}
        end
  end.

(** The callback of the conversation interval from its [await] on. *)
Definition conversationPoll_resume (r : Fetched (list Message)) (st : State) : State :=
  match r with
  | Rejected => st
  | Responded status body =>
      if negb (ok status) then st
      else
        match body with
        | None => st
        | Some data =>
            {| source := source st; tasks := tasks st; selectedTask := selectedTask st;
               conversation := Some data;
               loadingTasks := loadingTasks st;
               loadingConversation := loadingConversation st;
               error := error st |}
        end
  end.

(** The callback of the task-list interval from its [await] on. *)
Definition tasksPoll_resume (r : Fetched (list Task)) (st : State) : State :=
  match r with
  | Rejected => st
  | Responded status body =>
      if negb (ok status) then st
      else
        match body with
        | None => st
        | Some data =>
            {| source := source st; tasks := reconcile (tasks st) data;
               selectedTask := selectedTask st;
               conversation := conversation st;
               loadingTasks := loadingTasks st;
               loadingConversation := loadingConversation st;
               error := error st |}
        end
  end.

(** ** What can happen to the mounted component *)

Inductive Event : Type :=
| SelectTask (taskId : string)
| ChangeSource (newSource : Source)
| CloseConversation
| TasksTick
| ConversationTick
| TasksSettle (n : nat) (r : Fetched (list Task))
| ConversationSettle (n : nat) (r : Fetched (list Message)).

Definition Source_eqb (a b : Source) : bool :=
  match a, b with
  | nightly, nightly | production, production => true
  | _, _ => false
  end.

(** The state after the first render and its effects: [loadTasks()] has
    been called and is waiting for its fetch. *)
Definition mount (stored : Source) : World :=
  issue (LoadTasks stored)
    (loadTasks_start
       {| source := stored; tasks := []; selectedTask := None; conversation := None;
          loadingTasks := false; loadingConversation := false; error := None |})
    [].

(** One event; [None] when it cannot happen in [w] (the interval is not
    running, the button is not shown, the [n]-th pending fetch is not of
    that kind).  [SelectTask] is a click in the task list, [ChangeSource]
    the source selector, whose effect calls [loadTasks()]; a tick is an
    interval firing, which issues its fetch with the selection and source of
    the render that started the interval; a settle resumes the continuation
    of the [n]-th pending fetch. *)
Definition step (w : World) (e : Event) : option World :=
  let st := state w in
  match e with
  | SelectTask taskId =>
      match loadConversation_start taskId st with
      | Some st' => Some (issue (LoadConversation (source st) taskId) st' (pending w))
      | None => Some w
      end
  | ChangeSource newSource =>
      if Source_eqb newSource (source st) then Some w
      else
        Some (issue (LoadTasks newSource)
                (loadTasks_start
                   {| source := newSource; tasks := tasks st; selectedTask := selectedTask st;
                      conversation := conversation st; loadingTasks := loadingTasks st;
                      loadingConversation := loadingConversation st; error := error st |})
                (pending w))
  | CloseConversation =>
      match conversation st with
      | Some _ =>
          if loadingConversation st then None
          else
            Some {| state :=
                      {| source := source st; tasks := tasks st; selectedTask := None;
                         conversation := None; loadingTasks := loadingTasks st;
                         loadingConversation := loadingConversation st; error := error st |};
                    pending := pending w |}
      | None => None
      end
  | TasksTick => Some (issue (TasksPoll (source st)) st (pending w))
  | ConversationTick =>
      match selectedTask st with
      | Some taskId =>
          if String.eqb taskId "" then None
          else Some (issue (ConversationPoll (source st) taskId) st (pending w))
      | None => None
      end
  | TasksSettle n r =>
      match pending w !! n with
      | Some (TasksPoll _) =>
          Some {| state := tasksPoll_resume r st; pending := delete n (pending w) |}
      | Some (LoadTasks _) =>
          Some {| state := loadTasks_resume r st; pending := delete n (pending w) |}
      | _ => None
      end
  | ConversationSettle n r =>
      match pending w !! n with
      | Some (ConversationPoll _ _) =>
          Some {| state := conversationPoll_resume r st; pending := delete n (pending w) |}
      | Some (LoadConversation source taskId) =>
          Some (loadConversation_resume source taskId r st (delete n (pending w)))
      | _ => None
      end
  end.

Fixpoint run (w : World) (events : list Event) : option World :=
  match events with
  | [] => Some w
  | e :: events' =>
      match step w e with
      | Some w' => run w' events'
      | None => None
      end
  end.

End App.

(** * The rest of ConversationView.tsx: what the markup reads *)
Module Rendering.
Import Js ConversationView.

(** [block.type === 'tool_use' && block.id ? toolUsesMissingResults.has(block.id) : false],
    the [hasMissingResult] property handed to each [MessageBlock]. *)
Definition hasMissingResult (toolUsesMissingResults : gset string) (block : ContentBlock) : bool :=
  match ContentBlock.id block with
  | Some id =>
      if String.eqb (ContentBlock.type block) "tool_use" && negb (String.eqb id "")
      then bool_decide (id ∈ toolUsesMissingResults)
      else false
  | None => false
  end.

(** [hiddenCount > 0 && <button ...>]: whether the button that toggles
    [filterCondensed] is rendered. *)
Definition toggleRendered (messages : list Message) : bool :=
  (0 <? hiddenCount messages)%nat.

(** ** The scan on a conversation as [JSON.parse] returns it

    [ConversationView] follows the declared [Message]: an array content
    holds content blocks.  The conversation the component is handed is the
    parsed body of a response, and an array in it can hold any value; the
    scan reads [block.type] on each element. *)
Module Parsed.

(** An element of a parsed array: [null], on which reading a property
    raises a [TypeError]; a value whose [type] is not a string (a boolean,
    a number, a string, an array, an object without one), which both tests
    of the scan pass over; or an object with a [type], read as a block, its
    [id] and [tool_use_id] being strings where it has them. *)
Inductive Element : Type :=
| ENull
| EValue
| EBlock (block : ContentBlock).

(** The [content] of a parsed message. *)
Inductive Content : Type :=
| CString (s : string)
| CArray (elements : list Element)
| COther (v : Other).

(** A content of the declared type, as a parsed one. *)
Definition declared (content : ConversationView.Content) : Content :=
  match content with
  | ConversationView.CString s => CString s
  | ConversationView.CArray blocks => CArray (map EBlock blocks)
  | ConversationView.COther v => COther v
  end.

Definition normalizeContent (content : Content) : Exc (list Element) :=
  match content with
  | CString s => Ok [EBlock (text_block s)]
  | COther v => s <- String_ v ;; Ok [EBlock (text_block s)]
  | CArray elements => Ok elements
  end.

(** The callback of the inner [forEach]: both tests read [block.type]
    first. *)
Definition visitElement (messageIndex : nat) (acc : Scan) (element : Element) (blockIndex : nat) : Exc Scan :=
  match element with
  | ENull => Throw TypeError
  | EValue => Ok acc
  | EBlock block => Ok (visitBlock messageIndex acc block blockIndex)
  end.

(** The callback of the outer [forEach], which reads nothing of a message
    object but its [content]. *)
Definition visitMessage (acc : Scan) (content : Content) (messageIndex : nat) : Exc Scan :=
  elements <- normalizeContent content ;;
  forEachM (visitElement messageIndex) elements acc.

Definition scanMessages (contents : list Content) : Exc Scan :=
  forEachM visitMessage contents {| toolResultIds := ∅; toolUsePositions := ∅ |}.

(** [toolUsesMissingResults], given the [content] of each message. *)
Definition toolUsesMissingResults (contents : list Content) : Exc (gset string) :=
  scan <- scanMessages contents ;;
  Ok (collectMissing (Z.of_nat (length contents) - 1) scan).

End Parsed.

End Rendering.

(** * The rest of App.tsx: the stored source *)
Module Settings.
Import App.

(** The value of the [<option>] of a source, which the selector writes
    with [localStorage.setItem('convo-viewer-source', newSource)]. *)
Definition sourceValue (source : Source) : string :=
  match source with
  | nightly => "nightly"
  | production => "production"
  end.

(** [getStoredSource()], given what [localStorage.getItem] returns ([None]
    for [null]). *)
Definition getStoredSource (stored : option string) : Source :=
  match stored with
  | Some value => if String.eqb value "production" then production else nightly
  | None => nightly
  end.

End Settings.

(** * The server: the port search and the task listing *)
Module Server.
Import Js.

Abbreviation ContentBlock := ConversationView.ContentBlock.t.
Abbreviation Message := ConversationView.Message.t.
Abbreviation TaskInfo := App.Task.t.

(** ** findAvailablePort *)

Definition MAX_PORT_ATTEMPTS : nat := 10.

(** How a call of [findAvailablePort] ends. *)
Inductive Search : Type :=
| Found (port : Z)   (* [return port] *)
| BadPort            (* the [RangeError] that [server.listen] raises *)
| NoneAvailable.     (* [throw new Error('Could not find an available port ...')] *)

(** The ports [server.listen] accepts.  On any other integer it raises a
    [RangeError] ([ERR_SOCKET_BAD_PORT]) before it touches the network. *)
Definition validPort (port : Z) : bool := (0 <=? port)%Z && (port <? 65536)%Z.

Section Ports.
(** Whether a server that is told to listen on a valid port gets the
    ['listening'] event rather than ['error'], a probe of the network.  The
    loop probes each port at most once. *)
Variable listens : Z → bool.

(** [isPortAvailable(port)]: the promise resolves with the answer of the
    probe.  [server.listen] is called inside the executor of the promise,
    so its [RangeError] rejects the promise ([None]), and the [await] of the
    caller raises it. *)
Definition isPortAvailable (port : Z) : option bool :=
  if validPort port then Some (listens port) else None.

(** The loop of [findAvailablePort] with [attempts] iterations left: the
    ports logged as in use so far, and how the call ends. *)
Fixpoint tryPorts (attempts : nat) (port : Z) (logged : list Z) : list Z * Search :=
  match attempts with
  | O => (logged, NoneAvailable)
  | S attempts' =>
      match isPortAvailable port with
      | Some true => (logged, Found port)
      | Some false => tryPorts attempts' (port + 1)%Z (logged ++ [port])
      | None => (logged, BadPort)
      end
  end.

Definition findAvailablePort (startPort : Z) : list Z * Search :=
  tryPorts MAX_PORT_ATTEMPTS startPort [].

End Ports.

(** ** String methods *)

(** [s.slice(0, n)] *)
Fixpoint slice_to (n : nat) (s : string) : string :=
  match n, s with
  | S n', String c s' => String c (slice_to n' s')
  | _, _ => EmptyString
  end.

(** [s.slice(n)] *)
Fixpoint slice_from (n : nat) (s : string) : string :=
  match n, s with
  | S n', String _ s' => slice_from n' s'
  | _, _ => s
  end.

(** The position of the first occurrence of [needle] in [s]. *)
Fixpoint indexOf (needle s : string) : option nat :=
  if String.prefix needle s then Some 0%nat
  else
    match s with
    | EmptyString => None
    | String _ s' => option_map S (indexOf needle s')
    end.

(** [s.includes(needle)] *)
Definition includes (s needle : string) : bool :=
  match indexOf needle s with
  | Some _ => true
  | None => false
  end.

(** White space and line terminators, among the characters a [string] of
    this development can hold: tab, line feed, vertical tab, form feed,
    carriage return, space and no-break space. *)
Definition isWhiteSpace (c : Ascii.ascii) : bool :=
  match Ascii.N_of_ascii c with
  | 9%N | 10%N | 11%N | 12%N | 13%N | 32%N | 160%N => true
  | _ => false
  end.

Fixpoint trimStart (s : string) : string :=
  match s with
  | String c s' => if isWhiteSpace c then trimStart s' else s
  | EmptyString => EmptyString
  end.

Fixpoint trimEnd (s : string) : string :=
  match s with
  | String c s' =>
      match trimEnd s' with
      | EmptyString => if isWhiteSpace c then EmptyString else String c EmptyString
      | rest => String c rest
      end
  | EmptyString => EmptyString
  end.

(** [s.trim()] *)
Definition trim (s : string) : string := trimEnd (trimStart s).

(** The first capture group of [text.match(/<task>([\s\S]*?)<\/task>/)]:
    the match starts at the first [<task>] that a [</task>] follows, which
    is the first [<task>] of the text when there is a match at all, and the
    lazy group ends at the first [</task>] after it. *)
Definition matchTask (text : string) : option string :=
  match indexOf "<task>" text with
  | Some i =>
      let rest := slice_from (i + 6) text in
      match indexOf "</task>" rest with
      | Some j => Some (slice_to j rest)
      | None => None
      end
  | None => None
  end.

(** ** The route [/api/tasks/:source] *)

(** [for (const block of conversation[0].content) { ... }], from the value
    [firstMessage] has when an iteration starts. *)
Fixpoint scanForFirstMessage (firstMessage : string) (blocks : list ContentBlock) : string :=
  match blocks with
  | [] => firstMessage
  | block :: blocks' =>
      match ConversationView.ContentBlock.text block with
      | Some text =>
          if String.eqb (ConversationView.ContentBlock.type block) "text"
             && negb (String.eqb text "")
          then
            let firstMessage :=
              match matchTask text with
              | Some inner => slice_to 200 (trim inner)
              | None =>
                  if negb (includes text "<environment_details>")
                  then slice_to 200 text
                  else firstMessage
              end in
            if negb (String.eqb firstMessage "") then firstMessage
            else scanForFirstMessage firstMessage blocks'
          else scanForFirstMessage firstMessage blocks'
      | None => scanForFirstMessage firstMessage blocks'
      end
  end.

(** Truthiness of a value that is neither a string nor an array. *)
Definition truthy_other (v : ConversationView.Other) : bool :=
  match v with
  | ConversationView.OUndefined | ConversationView.ONull => false
  | ConversationView.OBool b => b
  | ConversationView.ONumber shown => negb (String.eqb shown "0")
  | ConversationView.OObject _ => true
  end.

(** The [firstMessage] computed for one conversation, before the
    placeholder.  A string is iterated character by character, and a
    character has no [type]; a truthy value that is neither a string nor
    an array is not iterable, and the [for] raises a [TypeError]. *)
Definition firstMessageOf (conversation : list Message) : Exc string :=
  match conversation with
  | [] => Ok ""
  | first :: _ =>
      match ConversationView.Message.content first with
      | ConversationView.CString _ => Ok ""
      | ConversationView.CArray blocks => Ok (scanForFirstMessage "" blocks)
      | ConversationView.COther v => if truthy_other v then Throw TypeError else Ok ""
      end
  end.

(** [firstMessage || 'No message preview'] *)
Definition orPlaceholder (firstMessage : string) : string :=
  if String.eqb firstMessage "" then "No message preview" else firstMessage.

(** What reading [api_conversation_history.json] of a task directory gives:
    [stat], [readFile] or [JSON.parse] throws, or there are a modification
    time and a parsed conversation. *)
Inductive History : Type :=
| Unreadable
| Readable (mtimeMs : Z) (conversation : list Message).

(** An entry of [fs.readdir(tasksPath, { withFileTypes: true })], with what
    its history file holds. *)
Record Dirent : Type := {
  name : string;
  isDirectory : bool;
  history : History
}.

(** The body of [for (const dir of dirs)]: the task pushed, if any. *)
Definition taskOf (dir : Dirent) : option TaskInfo :=
  if negb (isDirectory dir) then None
  else
    match history dir with
    | Unreadable => None
    | Readable mtimeMs conversation =>
        match firstMessageOf conversation with
        | Ok firstMessage =>
            Some {| App.Task.id := name dir;
                    App.Task.timestamp := mtimeMs;
                    App.Task.firstMessage := orPlaceholder firstMessage |}
        | Throw _ => None
        end
    end.

(** The handler, once the source names a task path: [dirs] is [None] when
    [fs.readdir] throws.  The answer is given as the client's [fetch] sees
    it. *)
Definition tasksRoute (dirs : option (list Dirent)) : App.Fetched (list TaskInfo) :=
  match dirs with
  | Some dirs => App.Responded 200 (Some (sort App.byTimestampDesc (omap taskOf dirs)))
  | None => App.Responded 500 None
  end.

End Server.

(** * The notions the specification words its properties with *)
Module Spec.
Import Js ConversationView.

(** [l'] is [l] with exactly the elements that satisfy [P] kept, in their
    order and with their multiplicity. *)
Inductive Keeps {A : Type} (P : A → Prop) : list A → list A → Prop :=
| Keeps_nil : Keeps P [] []
| Keeps_take x l l' : P x → Keeps P l l' → Keeps P (x :: l) (x :: l')
| Keeps_drop x l l' : ¬ P x → Keeps P l l' → Keeps P (x :: l) l'.

(** A message is superseded, in the words of the specification: it carries
    a [condenseParent] equal to the [condenseId] of some message of the
    sequence with [isSummary = true], or a [truncationParent] equal to the
    [truncationId] of some message with [isTruncationMarker = true]. *)
Definition superseded_as_worded (messages : list Message) (m : Message) : Prop :=
  (∃ p s, Message.condenseParent m = Some p ∧ s ∈ messages ∧
          Message.isSummary s = Some true ∧ Message.condenseId s = Some p)
  ∨ (∃ p s, Message.truncationParent m = Some p ∧ s ∈ messages ∧
            Message.isTruncationMarker s = Some true ∧ Message.truncationId s = Some p).

(** The same with the parent id required to be a non-empty string. *)
Definition superseded (messages : list Message) (m : Message) : Prop :=
  (∃ p s, Message.condenseParent m = Some p ∧ p ≠ "" ∧ s ∈ messages ∧
          Message.isSummary s = Some true ∧ Message.condenseId s = Some p)
  ∨ (∃ p s, Message.truncationParent m = Some p ∧ p ≠ "" ∧ s ∈ messages ∧
            Message.isTruncationMarker s = Some true ∧ Message.truncationId s = Some p).

(** A summary marker or a truncation marker. *)
Definition marker (m : Message) : Prop :=
  Message.isSummary m = Some true ∨ Message.isTruncationMarker m = Some true.

(** An object that has an own [toString] property. *)
Definition own_toString (v : Other) : Prop :=
  match v with
  | OObject props => ∃ j, (("toString", j) : string * Json) ∈ props
  | _ => False
  end.

(** A parsed content on which the scan raises: an array that holds [null],
    or an object that has an own [toString] property. *)
Definition raising (content : Rendering.Parsed.Content) : Prop :=
  (∃ elements, content = Rendering.Parsed.CArray elements ∧ Rendering.Parsed.ENull ∈ elements)
  ∨ (∃ v, content = Rendering.Parsed.COther v ∧ own_toString v).

(** A text block carrying [s]. *)
Definition text_of (b : ContentBlock) (s : string) : Prop :=
  ContentBlock.type b = "text" ∧ ContentBlock.text b = Some s.

(** ** Tool uses and their results, over the normalized blocks of each
    message *)

(** Block [j] of message [i] is a [tool_use] block with id [x]. *)
Definition use_at (conversation : list (list ContentBlock)) (i j : nat) (x : string) : Prop :=
  ∃ blocks b, conversation !! i = Some blocks ∧ blocks !! j = Some b ∧
              ContentBlock.type b = "tool_use" ∧ ContentBlock.id b = Some x.

(** Some [tool_result] block, in any message, carries [x] as its
    [tool_use_id]. *)
Definition answered (conversation : list (list ContentBlock)) (x : string) : Prop :=
  ∃ blocks b, blocks ∈ conversation ∧ b ∈ blocks ∧
              ContentBlock.type b = "tool_result" ∧ ContentBlock.tool_use_id b = Some x.

(** The tracked occurrence of [x]: the last [tool_use] block with that id,
    in the order of the traversal. *)
Definition tracked (conversation : list (list ContentBlock)) (x : string) (i j : nat) : Prop :=
  use_at conversation i j x ∧
  ∀ i' j', use_at conversation i' j' x → (i' < i ∨ (i' = i ∧ j' ≤ j))%nat.

(** [x] misses its result, in the words of the specification: some
    [tool_use] block carries it, no [tool_result] block does, and the
    message of its tracked occurrence is not the last one. *)
Definition missing_as_worded (conversation : list (list ContentBlock)) (x : string) : Prop :=
  (∃ i j, tracked conversation x i j ∧ (i + 1 < List.length conversation)%nat) ∧
  ¬ answered conversation x.

(** The same for a non-empty identifier. *)
Definition missing (conversation : list (list ContentBlock)) (x : string) : Prop :=
  x ≠ "" ∧ missing_as_worded conversation x.

(** ** The scan, over the normalized blocks *)

(** The body of the outer loop once the content of the message is
    normalized. *)
Definition visitBlocks (acc : Scan) (blocks : list ContentBlock) (messageIndex : nat) : Scan :=
  forEach (visitBlock messageIndex) blocks acc.

Definition emptyScan : Scan := {| toolResultIds := ∅; toolUsePositions := ∅ |}.

Definition scanBlocks (conversation : list (list ContentBlock)) : Scan :=
  forEach visitBlocks conversation emptyScan.

(** [conversation] holds the normalized content of each message. *)
Definition normalized (messages : list Message) (conversation : list (list ContentBlock)) : Prop :=
  Forall2 (λ m blocks, normalizeContent (Message.content m) = Ok blocks) messages conversation.

(** What the two collections hold once [conversation] has been scanned. *)
Definition scanned (conversation : list (list ContentBlock)) (scan : Scan) : Prop :=
  (∀ x, x ∈ toolResultIds scan ↔ x ≠ "" ∧ answered conversation x)
  ∧ (∀ x pos, toolUsePositions scan !! x = Some pos ↔
              x ≠ "" ∧ tracked conversation x (messageIndex pos) (blockIndex pos)).

(** ** The task list *)

(** The comparator [(a, b) => key(b) - key(a)]. *)
Definition descending {A : Type} (key : A → Z) (a b : A) : Z := (key b - key a)%Z.

(** [l'] is [l] stably sorted by descending timestamp: the same tasks, no
    timestamp followed by a greater one, and the tasks of equal timestamp
    in the order they had in [l]. *)
Definition stably_sorted_desc (l l' : list App.Task) : Prop :=
  l' ≡ₚ l
  ∧ Sorted (λ a b, (App.Task.timestamp b ≤ App.Task.timestamp a)%Z) l'
  ∧ ∀ z : Z, filter (λ t, App.Task.timestamp t = z) l' = filter (λ t, App.Task.timestamp t = z) l.

(** The tasks of [incoming] whose id does not occur in [current]. *)
Definition new_in (current incoming : list App.Task) : list App.Task :=
  filter (λ t, App.Task.id t ∉ map App.Task.id current) incoming.

(** [u] is the held task [c] after a poll that returned [incoming]: same
    id and first message, and the timestamp of the first task of [incoming]
    with that id, or its own when there is none. *)
Definition refreshed (incoming : list App.Task) (c u : App.Task) : Prop :=
  App.Task.id u = App.Task.id c
  ∧ App.Task.firstMessage u = App.Task.firstMessage c
  ∧ ((∃ before t after,
        incoming = before ++ t :: after ∧ App.Task.id t = App.Task.id c
        ∧ (∀ t', t' ∈ before → App.Task.id t' ≠ App.Task.id c)
        ∧ App.Task.timestamp u = App.Task.timestamp t)
     ∨ ((∀ t, t ∈ incoming → App.Task.id t ≠ App.Task.id c)
        ∧ App.Task.timestamp u = App.Task.timestamp c)).

(** ** The polls *)

(** The fetch threw, or the response has a non-success status, or its
    body does not parse. *)
Definition failed {A : Type} (r : App.Fetched A) : Prop :=
  match r with
  | App.Rejected => True
  | App.Responded status body => App.ok status = false ∨ body = None
  end.

End Spec.

(** * Sample inputs *)
Module Samples.
Import Js ConversationView App.

(** ** Conversations *)

Definition plain (text : string) : Message :=
  Message.mk user (CString text) 0 None None None None None None.

(** [A], [B(condenseParent = S1)] and [S1(isSummary, condenseId = S1)]. *)
Definition sample_A : Message := plain "A".
Definition sample_B : Message :=
  Message.mk assistant (CString "B") 1 None None (Some "S1") None None None.
Definition sample_S1 : Message :=
  Message.mk assistant (CString "summary") 2 (Some true) (Some "S1") None None None None.

(** A message whose [condenseParent] is the empty string, and a summary
    whose [condenseId] is the empty string. *)
Definition empty_parent : Message :=
  Message.mk assistant (CString "B") 1 None None (Some "") None None None.
Definition empty_summary : Message :=
  Message.mk assistant (CString "summary") 2 (Some true) (Some "") None None None None.

(** A summary [S1] that a later summary [S2] supersedes. *)
Definition older_summary : Message :=
  Message.mk assistant (CString "first summary") 1 (Some true) (Some "S1") (Some "S2") None None None.
Definition newer_summary : Message :=
  Message.mk assistant (CString "second summary") 2 (Some true) (Some "S2") None None None None.

Definition tool_use (id : option string) : ContentBlock :=
  ContentBlock.mk "tool_use" None id (Some "read_file") None None None None None.

(** A [tool_use] block whose id is the empty string, in the first of two
    messages; nothing answers it. *)
Definition unnamed_call : list Message :=
  [ Message.mk assistant (CArray [tool_use (Some "")]) 1 None None None None None None;
    Message.mk user (CString "done") 2 None None None None None None ].

Definition unnamed_call_blocks : list (list ContentBlock) :=
  [ [tool_use (Some "")]; [text_block "done"] ].

(** ** Task lists and runs of the component *)

Definition task (id : string) (timestamp : Z) : Task :=
  {| Task.id := id; Task.timestamp := timestamp; Task.firstMessage := "No message preview" |}.

(** The conversation of task X and of task Y, as the server holds them. *)
Definition conversation_X : list Message :=
  [ConversationView.Message.mk ConversationView.user (ConversationView.CString "task X") 1
     None None None None None None].
Definition conversation_Y : list Message :=
  [ConversationView.Message.mk ConversationView.user (ConversationView.CString "task Y") 2
     None None None None None None].

(** The task list loads; the user opens X and its conversation arrives; the
    conversation interval fires and its fetch for X is under way when the
    user opens Y; the conversation of Y arrives, and then the answer to the
    poll for X. *)
Definition stale_poll : list Event :=
  [ TasksSettle 0 (Responded 200 (Some [task "X" 10; task "Y" 20]));
    SelectTask "X";
    ConversationSettle 0 (Responded 200 (Some conversation_X));
    ConversationTick;
    SelectTask "Y";
    ConversationSettle 1 (Responded 200 (Some conversation_Y));
    ConversationSettle 0 (Responded 200 (Some conversation_X)) ].

(** The task list loads; the user opens X and, while that load is under
    way, switches the source, which clears the selection; then the
    conversation of X arrives. *)
Definition stale_load : list Event :=
  [ TasksSettle 0 (Responded 200 (Some [task "X" 10; task "Y" 20]));
    SelectTask "X";
    ChangeSource production;
    ConversationSettle 0 (Responded 200 (Some conversation_X)) ].

(** A component that polls the conversation of X. *)
Definition polling_X : World :=
  {| state := {| source := nightly; tasks := [task "X" 10]; selectedTask := Some "X";
                 conversation := Some conversation_X; loadingTasks := false;
                 loadingConversation := false; error := None |};
     pending := [ConversationPoll nightly "X"; TasksPoll nightly] |}.

End Samples.

(** * Notions for the runs of the component and for the server *)
Module RunSpec.
Import Js App.

(** No timestamp is followed by a greater one. *)
Definition newest_first (tasks : list Task) : Prop :=
  Sorted (λ a b, (Task.timestamp b ≤ Task.timestamp a)%Z) tasks.

Definition isConversationLoad (r : Request) : bool :=
  match r with
  | LoadConversation _ _ => true
  | _ => false
  end.

(** The number of calls of [loadConversation] that wait for their fetch. *)
Definition loadsInFlight (pending : list Request) : nat :=
  List.length (List.filter isConversationLoad pending).

(** [t] is the task the route lists for the entry [dir] of the task
    folder: [dir] is a directory whose history file is read and parsed and
    whose preview is computed without an exception; [t] is named after the
    directory, stamped with the modification time of the file, and carries
    the preview. *)
Definition lists (dir : Server.Dirent) (t : Task) : Prop :=
  Server.isDirectory dir = true
  ∧ ∃ conversation firstMessage,
      Server.history dir = Server.Readable (Task.timestamp t) conversation
      ∧ Server.firstMessageOf conversation = Ok firstMessage
      ∧ Task.id t = Server.name dir
      ∧ Task.firstMessage t = Server.orPlaceholder firstMessage.

(** The route lists a task for [dir]. *)
Definition listed (dir : Server.Dirent) : Prop := ∃ t, lists dir t.

(** The flag [loadingConversation] is set exactly while one call of
    [loadConversation] waits for its fetch, and there is never a second. *)
Definition one_load (w : World) : Prop :=
  loadsInFlight (pending w) = if loadingConversation (state w) then 1%nat else 0%nat.

(** Along the run of [events] from [w], every successful answer to a fetch
    of [loadTasks] carries a task list that is newest first. *)
Fixpoint loads_newest_first (w : World) (events : list Event) : Prop :=
  match events with
  | [] => True
  | e :: events' =>
      match e with
      | TasksSettle n (Responded status (Some data)) =>
          match pending w !! n with
          | Some (LoadTasks _) => ok status = true → newest_first data
          | _ => True
          end
      | _ => True
      end
      ∧ match step w e with
        | Some w' => loads_newest_first w' events'
        | None => True
        end
  end.

End RunSpec.

(** * Further sample inputs *)
Module Scenarios.
Import Js ConversationView App Samples.

(** An assistant message holding the given blocks. *)
Definition says (blocks : list ContentBlock) : Message :=
  Message.mk assistant (CArray blocks) 0 None None None None None None.

(** The call [t1] is made in the first message, never answered, and made
    again in the last message; the call [t2] is made in the first message
    and never answered. *)
Definition repeated_call : list Message :=
  [ says [tool_use (Some "t1"); tool_use (Some "t2")];
    plain "go on";
    says [tool_use (Some "t1")] ].

Definition repeated_call_blocks : list (list ContentBlock) :=
  [ [tool_use (Some "t1"); tool_use (Some "t2")];
    [text_block "go on"];
    [tool_use (Some "t1")] ].

(** A conversation of one message, an unanswered call. *)
Definition lone_call : list Message := [ says [tool_use (Some "t1")] ].

(** Ports 3001 and 3002 are taken, every other port is free. *)
Definition two_taken (port : Z) : bool :=
  negb ((port =? 3001)%Z || (port =? 3002)%Z).

(** A first message that wraps the prompt in a [<task>] tag. *)
Definition wrapped_prompt : list Message :=
  [ Message.mk user
      (CArray [ text_block "<environment_details>cwd</environment_details>";
                text_block "<task>  fix the build  </task>" ])
      0 None None None None None None ].

(** A task directory that reads, a plain file, a directory without a
    history file, and an older task directory. *)
Definition tasks_folder : list Server.Dirent :=
  [ {| Server.name := "a"; Server.isDirectory := true;
       Server.history := Server.Readable 10 [plain "hello"] |};
    {| Server.name := ".DS_Store"; Server.isDirectory := false;
       Server.history := Server.Unreadable |};
    {| Server.name := "b"; Server.isDirectory := true;
       Server.history := Server.Unreadable |};
    {| Server.name := "c"; Server.isDirectory := true;
       Server.history := Server.Readable 30 wrapped_prompt |} ].

(** The user has opened X and the fetch of its conversation is under
    way. *)
Definition loading_X : World :=
  {| state := {| source := nightly; tasks := [task "Y" 20; task "X" 10];
                 selectedTask := Some "X"; conversation := None;
                 loadingTasks := false; loadingConversation := true;
                 error := None |};
     pending := [TasksPoll nightly; LoadConversation nightly "X"] |}.

(** The task list loads, a poll of it is answered, the user opens X, which
    the server no longer has. *)
Definition deleted_task : list Event :=
  [ TasksSettle 0 (Responded 200 (Some [task "Y" 20; task "X" 10]));
    TasksTick;
    TasksSettle 0 (Responded 200 (Some [task "Z" 15; task "Y" 25]));
    SelectTask "X";
    ConversationSettle 0 (Responded 404 None) ].

End Scenarios.

(** * Properties of ConversationView.tsx *)
Module ConversationViewProofs.
Import Js ConversationView Spec Samples.

(** ** Truthiness and set membership *)

Lemma truthy_string_Some (o : option string) :
  truthy_string o = true ↔ ∃ s, o = Some s ∧ s ≠ "".
Proof.
  destruct o as [s|]; simpl.
  - rewrite negb_true_iff, String.eqb_neq. naive_solver.
  - naive_solver.
Qed.

Lemma truthy_bool_Some (o : option bool) : truthy_bool o = true ↔ o = Some true.
Proof. destruct o as [[]|]; simpl; naive_solver. Qed.

Lemma and_has_true (o : option string) (set : gset string) :
  and_has o set = true ↔ ∃ p, o = Some p ∧ p ≠ "" ∧ p ∈ set.
Proof.
  destruct o as [s|]; simpl.
  - rewrite andb_true_iff, negb_true_iff, String.eqb_neq, bool_decide_eq_true.
    naive_solver.
  - naive_solver.
Qed.

Lemma elem_of_List_filter {A : Type} (f : A → bool) (l : list A) (x : A) :
  x ∈ List.filter f l ↔ x ∈ l ∧ f x = true.
Proof. rewrite !list_elem_of_In. apply filter_In. Qed.

Lemma elem_of_existingSummaryIds (messages : list Message) (p : string) :
  p ∈ existingSummaryIds messages ↔
  p ≠ "" ∧ ∃ s, s ∈ messages ∧ Message.isSummary s = Some true ∧ Message.condenseId s = Some p.
Proof.
  unfold existingSummaryIds.
  rewrite elem_of_list_to_set, list_elem_of_omap.
  setoid_rewrite elem_of_List_filter.
  setoid_rewrite andb_true_iff.
  setoid_rewrite truthy_bool_Some.
  setoid_rewrite truthy_string_Some.
  split.
  - intros (s & (Hin & Hsum & q & Hq & Hne) & Hp). split; [congruence | eauto].
  - intros (Hne & s & Hin & Hsum & Hp). exists s. eauto 10.
Qed.

Lemma elem_of_existingTruncationIds (messages : list Message) (p : string) :
  p ∈ existingTruncationIds messages ↔
  p ≠ "" ∧ ∃ s, s ∈ messages ∧ Message.isTruncationMarker s = Some true ∧
                Message.truncationId s = Some p.
Proof.
  unfold existingTruncationIds.
  rewrite elem_of_list_to_set, list_elem_of_omap.
  setoid_rewrite elem_of_List_filter.
  setoid_rewrite andb_true_iff.
  setoid_rewrite truthy_bool_Some.
  setoid_rewrite truthy_string_Some.
  split.
  - intros (s & (Hin & Hsum & q & Hq & Hne) & Hp). split; [congruence | eauto].
  - intros (Hne & s & Hin & Hsum & Hp). exists s. eauto 10.
Qed.

(** ** The two predicates of the component and the superseded messages *)

Lemma counted_superseded (messages : list Message) (m : Message) :
  counted messages m = true ↔ superseded messages m.
Proof.
  unfold counted, superseded.
  rewrite orb_true_iff, !and_has_true.
  setoid_rewrite elem_of_existingSummaryIds.
  setoid_rewrite elem_of_existingTruncationIds.
  naive_solver.
Qed.

Lemma shown_counted (messages : list Message) (m : Message) :
  shown messages m = negb (counted messages m).
Proof. unfold shown, counted. repeat destruct (and_has _ _); reflexivity. Qed.

Lemma shown_not_superseded (messages : list Message) (m : Message) :
  shown messages m = true ↔ ¬ superseded messages m.
Proof.
  rewrite shown_counted, negb_true_iff, <- counted_superseded.
  destruct (counted messages m); naive_solver.
Qed.

(** ** Filtering by a boolean test keeps what the test accepts *)

Lemma Keeps_List_filter {A : Type} (f : A → bool) (P : A → Prop) (l : list A) :
  (∀ x, f x = true ↔ P x) → Keeps P l (List.filter f l).
Proof.
  intros Hf. induction l as [|x l IH]; simpl.
  - constructor.
  - destruct (f x) eqn:Hx.
    + apply Keeps_take; [by apply Hf | done].
    + apply Keeps_drop; [|done]. rewrite <- Hf. congruence.
Qed.

Lemma Keeps_length {A : Type} (P : A → Prop) (l l' : list A) :
  Keeps P l l' → (List.length l' ≤ List.length l)%nat.
Proof. induction 1; simpl; lia. Qed.

Lemma Keeps_elem_of {A : Type} (P : A → Prop) (l l' : list A) (x : A) :
  Keeps P l l' → x ∈ l' ↔ x ∈ l ∧ P x.
Proof.
  induction 1 as [|y l l' Hy HK IH|y l l' Hy HK IH].
  - rewrite !elem_of_nil. naive_solver.
  - rewrite !elem_of_cons, IH. naive_solver.
  - rewrite elem_of_cons, IH. naive_solver.
Qed.

Lemma length_List_filter_negb {A : Type} (f : A → bool) (l : list A) :
  (List.length (List.filter f l) + List.length (List.filter (λ x, negb (f x)) l)
   = List.length l)%nat.
Proof. induction l as [|x l IH]; simpl; [done|]. destruct (f x); simpl; lia. Qed.

Lemma filteredMessages_on (messages : list Message) :
  filteredMessages true messages = List.filter (shown messages) messages.
Proof. reflexivity. Qed.

Lemma hiddenCount_counted (messages : list Message) :
  hiddenCount messages = List.length (List.filter (counted messages) messages).
Proof. reflexivity. Qed.

(** ** normalizeContent *)

(** C9, as the code has it: [normalizeContent] turns a string into exactly
    one text block carrying that string, returns an array unchanged, and
    turns any other value whose conversion by [String] succeeds (which it
    does for every value but an object with an own [toString] property)
    into exactly one text block carrying that conversion; it raises only
    where [String] itself does. *)
Theorem normalizeContent_cases (content : Content) :
  match content with
  | CString s => ∃ b, normalizeContent content = Ok [b] ∧ text_of b s
  | CArray blocks => normalizeContent content = Ok blocks
  | COther v =>
      match String_ v with
      | Ok s => ¬ own_toString v ∧ ∃ b, normalizeContent content = Ok [b] ∧ text_of b s
      | Throw e => own_toString v ∧ normalizeContent content = Throw e
      end
  end.
Proof.
  destruct content as [s|blocks|v]; simpl.
  - exists (text_block s). by repeat split.
  - reflexivity.
  - assert (Hown : ∀ props, hasOwn "toString" props = true ↔
                            ∃ j, (("toString", j) : string * Json) ∈ props).
    { intros props. unfold hasOwn. rewrite existsb_exists. split.
      - intros ([k j] & Hin & Hk). simpl in Hk. apply String.eqb_eq in Hk. subst k.
        exists j. by apply list_elem_of_In.
      - intros (j & Hin). exists ("toString", j). split; [by apply list_elem_of_In | done]. }
    destruct v as [| |[]|shown|props]; simpl;
      try (split; [tauto | eexists; by repeat split]).
    destruct (hasOwn "toString" props) eqn:Hp; simpl.
    + split; [by apply Hown | reflexivity].
    + split; [|eexists; by repeat split].
      rewrite <- Hown. congruence.
Qed.

(** C9, as the specification words it, fails on an object with an own
    [toString] property such as [{"toString": null}]: the conversion, and
    with it [normalizeContent], raises a [TypeError]. *)
Lemma normalizeContent_raises :
  normalizeContent (COther (OObject [("toString", JNull)])) = Throw TypeError.
Proof. reflexivity. Qed.

(** ** filteredMessages and hiddenCount *)

(** C1, as the code has it: with the toggle on the filtered sequence is the
    input with exactly the messages kept that are not superseded, where a
    message is superseded when its [condenseParent] is a non-empty string
    equal to the [condenseId] of a message of the sequence with
    [isSummary = true], or its [truncationParent] a non-empty string equal
    to the [truncationId] of one with [isTruncationMarker = true]; with the
    toggle off it is the input.  The sample [A; B; S1] is filtered to
    [A; S1] with a hidden count of 1. *)
Theorem filteredMessages_keeps_unsuperseded (messages : list Message) :
  Keeps (λ m, ¬ superseded messages m) messages (filteredMessages true messages)
  ∧ (∀ m, m ∈ filteredMessages true messages ↔ m ∈ messages ∧ ¬ superseded messages m)
  ∧ filteredMessages false messages = messages
  ∧ filteredMessages true [sample_A; sample_B; sample_S1] = [sample_A; sample_S1]
  ∧ hiddenCount [sample_A; sample_B; sample_S1] = 1%nat
  ∧ filteredMessages false [sample_A; sample_B; sample_S1] = [sample_A; sample_B; sample_S1].
Proof.
  assert (HK : Keeps (λ m, ¬ superseded messages m) messages (filteredMessages true messages)).
  { rewrite filteredMessages_on. apply Keeps_List_filter. apply shown_not_superseded. }
  split; [exact HK|].
  split; [intros m; exact (Keeps_elem_of _ _ _ m HK)|].
  split; [reflexivity|].
  split; [by vm_compute|].
  split; [by vm_compute|reflexivity].
Qed.

(** C1, as the specification words it, fails when the parent and the
    summary id are both the empty string: the message is superseded in
    those words, and the filter keeps it. *)
Lemma filteredMessages_keeps_empty_parent :
  superseded_as_worded [empty_parent; empty_summary] empty_parent
  ∧ filteredMessages true [empty_parent; empty_summary] = [empty_parent; empty_summary]
  ∧ ¬ Keeps (λ m, ¬ superseded_as_worded [empty_parent; empty_summary] m)
        [empty_parent; empty_summary]
        (filteredMessages true [empty_parent; empty_summary]).
Proof.
  assert (Hs : superseded_as_worded [empty_parent; empty_summary] empty_parent).
  { left. exists "", empty_summary. repeat split. set_solver. }
  assert (Hf : filteredMessages true [empty_parent; empty_summary]
               = [empty_parent; empty_summary]) by by vm_compute.
  split; [exact Hs|]. split; [exact Hf|].
  rewrite Hf. intros HK.
  inversion HK as [|x l l' Hx HK'|x l l' Hx HK']; subst.
  - by apply Hx.
  - apply Keeps_length in HK'. simpl in HK'. lia.
Qed.

(** C3, as the code has it: a marker is kept by the filter exactly when it
    is not itself superseded; one whose parent names a marker id present in
    the conversation is dropped like any other message. *)
Theorem marker_kept_iff_unsuperseded (messages : list Message) (m : Message) :
  marker m →
  m ∈ filteredMessages true messages ↔ m ∈ messages ∧ ¬ superseded messages m.
Proof.
  intros _. rewrite filteredMessages_on, elem_of_List_filter.
  by rewrite shown_not_superseded.
Qed.

Lemma marker_kept_iff_unsuperseded_witness :
  marker newer_summary
  ∧ (newer_summary ∈ filteredMessages true [older_summary; newer_summary] ↔
     newer_summary ∈ [older_summary; newer_summary]
     ∧ ¬ superseded [older_summary; newer_summary] newer_summary).
Proof.
  split.
  - left. reflexivity.
  - apply (marker_kept_iff_unsuperseded [older_summary; newer_summary] newer_summary).
    left. reflexivity.
Defined.

(** C3, as the specification words it, fails: the summary [S1], whose
    [condenseParent] names the later summary [S2], is a marker of the
    conversation and the filter drops it. *)
Lemma superseded_marker_dropped :
  marker older_summary
  ∧ older_summary ∈ [older_summary; newer_summary]
  ∧ older_summary ∉ filteredMessages true [older_summary; newer_summary].
Proof.
  split; [left; reflexivity|]. split; [set_solver|].
  assert (Hf : filteredMessages true [older_summary; newer_summary] = [newer_summary])
    by by vm_compute.
  rewrite Hf. intros Hin. apply list_elem_of_singleton in Hin. discriminate Hin.
Qed.

(** C7, as the code has it: whatever the toggle, the hidden count of a
    render is the number of superseded messages of the whole sequence it
    was given, where a message is superseded when it carries a non-empty
    parent id that names a marker of the sequence; this is the number of
    messages the filter removes when it is on. *)
Theorem hiddenCount_independent_of_toggle (messages : list Message) (filterCondensed : bool) :
  (∃ hidden, Keeps (superseded messages) messages hidden
             ∧ hiddenBadge (render messages filterCondensed) = List.length hidden)
  ∧ (hiddenBadge (render messages filterCondensed)
     + List.length (shownMessages (render messages true)) = List.length messages)%nat
  ∧ hiddenBadge (render messages true) = hiddenBadge (render messages false).
Proof.
  split; [|split].
  - exists (List.filter (counted messages) messages). split; [|reflexivity].
    apply Keeps_List_filter. apply counted_superseded.
  - simpl. rewrite hiddenCount_counted, filteredMessages_on.
    rewrite <- (length_List_filter_negb (counted messages) messages).
    f_equal. f_equal. apply filter_ext. intros m. apply shown_counted.
  - reflexivity.
Qed.

(** C7, as the specification words it, fails when the parent and the
    summary id are both the empty string: one message of the sequence is
    superseded in those words, and the hidden count is 0 for either
    position of the toggle. *)
Lemma hiddenCount_skips_empty_parent :
  Keeps (superseded_as_worded [empty_parent; empty_summary])
    [empty_parent; empty_summary] [empty_parent]
  ∧ hiddenBadge (render [empty_parent; empty_summary] true) = 0%nat
  ∧ hiddenBadge (render [empty_parent; empty_summary] false) = 0%nat
  ∧ ¬ ∃ hidden,
        Keeps (superseded_as_worded [empty_parent; empty_summary])
          [empty_parent; empty_summary] hidden
        ∧ hiddenBadge (render [empty_parent; empty_summary] true) = List.length hidden.
Proof.
  assert (Hs : superseded_as_worded [empty_parent; empty_summary] empty_parent).
  { left. exists "", empty_summary. repeat split. set_solver. }
  assert (Hcount : hiddenBadge (render [empty_parent; empty_summary] true) = 0%nat)
    by by vm_compute.
  split; [|split; [exact Hcount|split; [by vm_compute|]]].
  - apply Keeps_take; [exact Hs|]. apply Keeps_drop; [|constructor].
    intros [(p & s & Hp & _)|(p & s & Hp & _)]; discriminate Hp.
  - intros (hidden & HK & Hlen). rewrite Hcount in Hlen.
    destruct hidden as [|m hidden]; [|discriminate Hlen].
    inversion HK as [| |x l l' Hx HK']; subst. by apply Hx.
Qed.

End ConversationViewProofs.

(** * Properties of the scan for tool uses without a result *)
Module ToolPairingProofs.
Import Js ConversationView Spec Samples.

Lemma forEach_from_snoc {A St : Type} (f : St → A → nat → St) (i : nat) (l : list A) (x : A) (s : St) :
  forEach_from f i (l ++ [x]) s = f (forEach_from f i l s) x (i + List.length l)%nat.
Proof.
  revert i s. induction l as [|y l IH]; intros i s; simpl.
  - by rewrite Nat.add_0_r.
  - rewrite IH. f_equal. lia.
Qed.

Lemma forEach_snoc {A St : Type} (f : St → A → nat → St) (l : list A) (x : A) (s : St) :
  forEach f (l ++ [x]) s = f (forEach f l s) x (List.length l).
Proof. unfold forEach. by rewrite forEach_from_snoc. Qed.

Lemma forEachM_visitMessage (messages : list Message) (i : nat) (acc : Scan) :
  match forEachM_from visitMessage i messages acc with
  | Ok acc' =>
      ∃ conversation, normalized messages conversation
                      ∧ acc' = forEach_from visitBlocks i conversation acc
  | Throw e => ∃ m, m ∈ messages ∧ normalizeContent (Message.content m) = Throw e
  end.
Proof.
  revert i acc. induction messages as [|m messages IH]; intros i acc; simpl.
  - exists []. split; [constructor | reflexivity].
  - unfold visitMessage at 1.
    destruct (normalizeContent (Message.content m)) as [blocks|e] eqn:Hm; simpl.
    + specialize (IH (S i) (forEach (visitBlock i) blocks acc)).
      destruct (forEachM_from visitMessage (S i) messages _) as [acc'|e].
      * destruct IH as (conversation & Hn & ->).
        exists (blocks :: conversation). split; [by constructor | reflexivity].
      * destruct IH as (m' & Hin & Hm'). exists m'. split; [by right | done].
    + exists m. split; [by left | done].
Qed.

(** ** Occurrences in a conversation that grows by one block *)

Lemma use_at_snoc_block conversation blocks b i j x :
  use_at (conversation ++ [blocks ++ [b]]) i j x ↔
  use_at (conversation ++ [blocks]) i j x
  ∨ (i = List.length conversation ∧ j = List.length blocks ∧
     ContentBlock.type b = "tool_use" ∧ ContentBlock.id b = Some x).
Proof.
  unfold use_at. split.
  - intros (bs & b' & Hi & Hj & Hty & Hid).
    apply lookup_snoc_Some in Hi as [[Hlt Hi] | [-> <-]].
    + left. exists bs, b'. rewrite lookup_app_l by done. done.
    + apply lookup_snoc_Some in Hj as [[Hlt Hj] | [-> <-]].
      * left. exists blocks, b'. split; [|done].
        apply lookup_snoc_Some. by right.
      * by right.
  - intros [(bs & b' & Hi & Hj & Hty & Hid) | (-> & -> & Hty & Hid)].
    + apply lookup_snoc_Some in Hi as [[Hlt Hi] | [-> <-]].
      * exists bs, b'. rewrite lookup_app_l by done. done.
      * exists (blocks ++ [b]), b'. split; [apply lookup_snoc_Some; by right|].
        split; [|done]. apply lookup_app_l_Some. done.
    + exists (blocks ++ [b]), b. split; [apply lookup_snoc_Some; by right|].
      split; [|done]. apply lookup_snoc_Some. by right.
Qed.

Lemma use_at_bound conversation blocks i j x :
  use_at (conversation ++ [blocks]) i j x →
  (i < List.length conversation ∨ (i = List.length conversation ∧ j < List.length blocks))%nat.
Proof.
  intros (bs & b' & Hi & Hj & _).
  apply lookup_snoc_Some in Hi as [[Hlt Hi] | [-> <-]]; [by left|].
  right. split; [done|]. by eapply lookup_lt_Some.
Qed.

Lemma use_at_open conversation i j x :
  use_at (conversation ++ [[]]) i j x ↔ use_at conversation i j x.
Proof.
  unfold use_at. split.
  - intros (bs & b' & Hi & Hj & Hrest).
    apply lookup_snoc_Some in Hi as [[Hlt Hi] | [-> <-]]; [by eauto|done].
  - intros (bs & b' & Hi & Hrest). exists bs, b'. split; [|done].
    by apply lookup_app_l_Some.
Qed.

Lemma answered_snoc_block conversation blocks b x :
  answered (conversation ++ [blocks ++ [b]]) x ↔
  answered (conversation ++ [blocks]) x
  ∨ (ContentBlock.type b = "tool_result" ∧ ContentBlock.tool_use_id b = Some x).
Proof.
  unfold answered. split.
  - intros (bs & b' & Hbs & Hb & Hrest).
    apply elem_of_app in Hbs as [Hbs | ->%list_elem_of_singleton].
    + left. exists bs, b'. split; [|done]. apply elem_of_app. by left.
    + apply elem_of_app in Hb as [Hb | ->%list_elem_of_singleton].
      * left. exists blocks, b'. split; [|done]. apply elem_of_app. right. by left.
      * by right.
  - intros [(bs & b' & Hbs & Hb & Hrest) | Hb].
    + apply elem_of_app in Hbs as [Hbs | ->%list_elem_of_singleton].
      * exists bs, b'. split; [|done]. apply elem_of_app. by left.
      * exists (blocks ++ [b]), b'. split; [apply elem_of_app; right; by left|].
        split; [|done]. apply elem_of_app. by left.
    + exists (blocks ++ [b]), b. split; [apply elem_of_app; right; by left|].
      split; [|done]. apply elem_of_app. right. by left.
Qed.

Lemma answered_open conversation x :
  answered (conversation ++ [[]]) x ↔ answered conversation x.
Proof.
  unfold answered. split.
  - intros (bs & b' & Hbs & Hb & Hrest).
    apply elem_of_app in Hbs as [Hbs | ->%list_elem_of_singleton]; [by eauto|].
    by apply elem_of_nil in Hb.
  - intros (bs & b' & Hbs & Hrest). exists bs, b'. split; [|done].
    apply elem_of_app. by left.
Qed.

Lemma tracked_open conversation x i j :
  tracked (conversation ++ [[]]) x i j ↔ tracked conversation x i j.
Proof. unfold tracked. setoid_rewrite use_at_open. done. Qed.

(** A new [tool_use] block with id [x] becomes the tracked occurrence. *)
Lemma tracked_snoc_use conversation blocks b x i j :
  ContentBlock.type b = "tool_use" → ContentBlock.id b = Some x →
  tracked (conversation ++ [blocks ++ [b]]) x i j ↔
  i = List.length conversation ∧ j = List.length blocks.
Proof.
  intros Hty Hid. unfold tracked. split.
  - intros [Hu Hlast].
    apply use_at_snoc_block in Hu as [Hu | (-> & -> & _)]; [|done].
    apply use_at_bound in Hu.
    destruct (Hlast (List.length conversation) (List.length blocks)) as [?|[? ?]];
      [apply use_at_snoc_block; by right | lia | lia].
  - intros [-> ->]. split; [apply use_at_snoc_block; by right|].
    intros i' j' Hu.
    apply use_at_snoc_block in Hu as [Hu | (-> & -> & _)]; [|lia].
    apply use_at_bound in Hu. lia.
Qed.

(** Any other block leaves the tracked occurrence where it was. *)
Lemma tracked_snoc_other conversation blocks b x i j :
  ¬ (ContentBlock.type b = "tool_use" ∧ ContentBlock.id b = Some x) →
  tracked (conversation ++ [blocks ++ [b]]) x i j ↔ tracked (conversation ++ [blocks]) x i j.
Proof.
  intros Hb. unfold tracked. setoid_rewrite use_at_snoc_block. naive_solver.
Qed.

(** ** One block, one message, the whole conversation *)

Lemma toolResultIds_visitBlock i acc b j x :
  x ∈ toolResultIds (visitBlock i acc b j) ↔
  x ∈ toolResultIds acc
  ∨ (x ≠ "" ∧ ContentBlock.type b = "tool_result" ∧ ContentBlock.tool_use_id b = Some x).
Proof.
  unfold visitBlock.
  destruct (ContentBlock.tool_use_id b) as [t|], (ContentBlock.id b) as [u|];
    destruct (String.eqb_spec (ContentBlock.type b) "tool_result");
    destruct (String.eqb_spec (ContentBlock.type b) "tool_use");
    try destruct (String.eqb_spec t ""); try destruct (String.eqb_spec u "");
    simpl; rewrite ?elem_of_union, ?elem_of_singleton; naive_solver.
Qed.

Lemma toolUsePositions_visitBlock i acc b j x pos :
  toolUsePositions (visitBlock i acc b j) !! x = Some pos ↔
  (x ≠ "" ∧ ContentBlock.type b = "tool_use" ∧ ContentBlock.id b = Some x
   ∧ pos = {| messageIndex := i; blockIndex := j |})
  ∨ (¬ (x ≠ "" ∧ ContentBlock.type b = "tool_use" ∧ ContentBlock.id b = Some x)
     ∧ toolUsePositions acc !! x = Some pos).
Proof.
  unfold visitBlock.
  destruct (ContentBlock.tool_use_id b) as [t|], (ContentBlock.id b) as [u|];
    destruct (String.eqb_spec (ContentBlock.type b) "tool_result");
    destruct (String.eqb_spec (ContentBlock.type b) "tool_use");
    try destruct (String.eqb_spec t ""); try destruct (String.eqb_spec u "");
    simpl; try (destruct (decide (u = x)) as [->|]);
    rewrite ?lookup_insert_eq, ?lookup_insert_ne by done; naive_solver.
Qed.

Lemma scanned_empty : scanned [] emptyScan.
Proof.
  split.
  - intros x. simpl. rewrite elem_of_empty. split; [done|].
    intros (_ & bs & b & Hbs & _). by apply elem_of_nil in Hbs.
  - intros x pos. simpl. rewrite lookup_empty. split; [done|].
    intros (_ & (bs & b & Hbs & _) & _). done.
Qed.

Lemma scanned_open conversation scan :
  scanned conversation scan → scanned (conversation ++ [[]]) scan.
Proof.
  intros [HR HP]. split.
  - intros x. by rewrite answered_open.
  - intros x pos. by rewrite tracked_open.
Qed.

Lemma scanned_block conversation blocks b scan :
  scanned (conversation ++ [blocks]) scan →
  scanned (conversation ++ [blocks ++ [b]])
    (visitBlock (List.length conversation) scan b (List.length blocks)).
Proof.
  intros [HR HP]. split.
  - intros x. rewrite toolResultIds_visitBlock, HR, answered_snoc_block. naive_solver.
  - intros x pos. rewrite toolUsePositions_visitBlock.
    destruct (decide (ContentBlock.type b = "tool_use" ∧ ContentBlock.id b = Some x))
      as [[Hty Hid]|Hno].
    + rewrite tracked_snoc_use by done. split.
      * intros [(Hne & _ & _ & ->) | (Hno & Hold)]; [done|].
        apply HP in Hold as [Hne _]. exfalso. by apply Hno.
      * intros (Hne & Hi & Hj). left. destruct pos as [mi bi]. simpl in *. by subst.
    + rewrite tracked_snoc_other by done. rewrite <- HP. split.
      * intros [(? & ? & ? & ?) | [_ ?]]; [tauto | done].
      * intros Hold. right. split; [tauto | done].
Qed.

Lemma scanned_blocks conversation blocks scan :
  scanned conversation scan →
  scanned (conversation ++ [blocks]) (visitBlocks scan blocks (List.length conversation)).
Proof.
  intros Hscan. unfold visitBlocks.
  induction blocks as [|b blocks IH] using rev_ind.
  - by apply scanned_open.
  - rewrite forEach_snoc. by apply scanned_block.
Qed.

Lemma scanned_scanBlocks conversation : scanned conversation (scanBlocks conversation).
Proof.
  unfold scanBlocks.
  induction conversation as [|blocks conversation IH] using rev_ind.
  - apply scanned_empty.
  - rewrite forEach_snoc. by apply scanned_blocks.
Qed.

(** ** The second loop *)

Lemma elem_of_collectMissing (lastMessageIndex : Z) (scan : Scan) (x : string) :
  x ∈ collectMissing lastMessageIndex scan ↔
  ∃ pos, toolUsePositions scan !! x = Some pos ∧ (x ∉ toolResultIds scan)
         ∧ (Z.of_nat (messageIndex pos) < lastMessageIndex)%Z.
Proof.
  unfold collectMissing. revert x.
  apply (map_fold_weak_ind
           (λ missingResults (positions : gmap string Position),
              ∀ x, x ∈ missingResults ↔
                   ∃ pos, positions !! x = Some pos ∧ (x ∉ toolResultIds scan)
                          ∧ (Z.of_nat (messageIndex pos) < lastMessageIndex)%Z)).
  - intros x. rewrite elem_of_empty. split; [done|].
    intros (pos & Hpos & _). by rewrite lookup_empty in Hpos.
  - intros toolUseId position positions missingResults Hfresh IH x.
    assert (Hstep :
      (∃ pos, <[toolUseId:=position]> positions !! x = Some pos ∧ (x ∉ toolResultIds scan)
              ∧ (Z.of_nat (messageIndex pos) < lastMessageIndex)%Z) ↔
      (x = toolUseId ∧ (toolUseId ∉ toolResultIds scan)
       ∧ (Z.of_nat (messageIndex position) < lastMessageIndex)%Z)
      ∨ (∃ pos, positions !! x = Some pos ∧ (x ∉ toolResultIds scan)
                ∧ (Z.of_nat (messageIndex pos) < lastMessageIndex)%Z)).
    { destruct (decide (x = toolUseId)) as [->|Hne].
      - rewrite lookup_insert_eq, Hfresh. naive_solver.
      - rewrite lookup_insert_ne by done. naive_solver. }
    rewrite Hstep, <- IH. clear Hstep.
    destruct (bool_decide (toolUseId ∈ toolResultIds scan)) eqn:Hres; simpl.
    + apply bool_decide_eq_true in Hres. naive_solver.
    + apply bool_decide_eq_false in Hres.
      destruct (Z.ltb_spec (Z.of_nat (messageIndex position)) lastMessageIndex).
      * rewrite elem_of_union, elem_of_singleton. naive_solver.
      * split; [by right | intros [(_ & _ & ?) | ?]; [lia | done]].
Qed.

Lemma tracked_unique conversation x i j i' j' :
  tracked conversation x i j → tracked conversation x i' j' → i = i' ∧ j = j'.
Proof.
  intros [Hu Hlast] [Hu' Hlast'].
  apply Hlast in Hu'. apply Hlast' in Hu. lia.
Qed.

(** The result of the whole computation, read off the normalized
    conversation. *)
Lemma toolUsesMissingResults_scan (messages : list Message) :
  match toolUsesMissingResults messages with
  | Ok missingResults =>
      ∃ conversation, normalized messages conversation
                      ∧ ∀ x, x ∈ missingResults ↔ missing conversation x
  | Throw e => ∃ m, m ∈ messages ∧ normalizeContent (Message.content m) = Throw e
  end.
Proof.
  unfold toolUsesMissingResults, scanMessages, forEachM.
  pose proof (forEachM_visitMessage messages 0
                {| toolResultIds := ∅; toolUsePositions := ∅ |}) as Hscan.
  destruct (forEachM_from visitMessage 0 messages _) as [scan|e]; simpl; [|done].
  destruct Hscan as (conversation & Hnorm & ->).
  exists conversation. split; [done|]. intros x.
  destruct (scanned_scanBlocks conversation) as [HR HP].
  change (forEach_from visitBlocks 0 conversation _) with (scanBlocks conversation).
  rewrite elem_of_collectMissing. setoid_rewrite HP. setoid_rewrite HR.
  rewrite (Forall2_length _ _ _ Hnorm).
  unfold missing, missing_as_worded. split.
  - intros (pos & (Hne & Htr) & Hres & Hlt).
    split; [done|]. split; [|tauto].
    exists (messageIndex pos), (blockIndex pos). split; [done | lia].
  - intros (Hne & (i & j & Htr & Hlt) & Hres).
    exists {| messageIndex := i; blockIndex := j |}. simpl.
    split; [done|]. split; [tauto | lia].
Qed.

(** C2, as the code has it: when no content fails to normalize, the
    computed set holds exactly the non-empty identifiers that some
    [tool_use] block carries, that no [tool_result] block of any message
    carries as [tool_use_id], and whose tracked occurrence, the last one of
    the traversal, lies in a message that is not the last; so an identifier
    tracked in the final message is never in it.  The computation raises
    only when normalizing the content of some message does. *)
Theorem toolUsesMissingResults_characterized (messages : list Message) :
  match toolUsesMissingResults messages with
  | Ok missingResults =>
      ∃ conversation,
        normalized messages conversation
        ∧ (∀ x, x ∈ missingResults ↔ missing conversation x)
        ∧ (∀ x i j, tracked conversation x i j →
                    (i + 1 = List.length conversation)%nat → x ∉ missingResults)
  | Throw e => ∃ m, m ∈ messages ∧ normalizeContent (Message.content m) = Throw e
  end.
Proof.
  pose proof (toolUsesMissingResults_scan messages) as H.
  destruct (toolUsesMissingResults messages) as [missingResults|e]; [|done].
  destruct H as (conversation & Hnorm & Hiff).
  exists conversation. split; [done|]. split; [done|].
  intros x i j Htr Hlast Hin.
  apply Hiff in Hin as (_ & (i' & j' & Htr' & Hlt) & _).
  destruct (tracked_unique _ _ _ _ _ _ Htr Htr'). lia.
Qed.

(** C2, as the specification words it, fails for the empty identifier: the
    [tool_use] block of the first message carries it, no [tool_result]
    block does, its message is not the last, and the computed set is
    empty. *)
Lemma unnamed_call_not_reported :
  toolUsesMissingResults unnamed_call = Ok ∅
  ∧ normalized unnamed_call unnamed_call_blocks
  ∧ missing_as_worded unnamed_call_blocks "".
Proof.
  split; [by vm_compute|]. split; [by repeat constructor|].
  split.
  - exists 0%nat, 0%nat. split; [|simpl; lia]. split.
    + exists [tool_use (Some "")], (tool_use (Some "")). by repeat split.
    + intros i' j' (bs & b & Hi & Hj & Hty & _).
      destruct i' as [|[|i']]; simplify_eq/=.
      * destruct j' as [|j']; simplify_eq/=. lia.
      * destruct j' as [|j']; simplify_eq/=.
  - intros (bs & b & Hbs & Hb & Hty & _).
    apply list_elem_of_In in Hbs. apply list_elem_of_In in Hb.
    destruct Hbs as [<-|[<-|[]]]; destruct Hb as [<-|[]]; discriminate Hty.
Qed.

End ToolPairingProofs.

(** * Properties of the task list and of the polls *)
Module AppProofs.
Import Js App Spec Samples.

(** ** Array.prototype.sort with the comparator of the task list *)

Section SortByKey.
Context {A : Type} (key : A → Z).

Lemma sort_insert_Permutation (x : A) (l : list A) : sort_insert (descending key) x l ≡ₚ x :: l.
Proof.
  induction l as [|y l IH]; simpl; [done|].
  destruct (descending key x y <=? 0)%Z; [done|].
  rewrite IH. apply Permutation_swap.
Qed.

Lemma sort_Permutation (l : list A) : sort (descending key) l ≡ₚ l.
Proof.
  induction l as [|x l IH]; simpl; [done|].
  by rewrite sort_insert_Permutation, IH.
Qed.

Lemma sort_insert_Sorted (x : A) (l : list A) :
  Sorted (λ a b, (key b ≤ key a)%Z) l →
  Sorted (λ a b, (key b ≤ key a)%Z) (sort_insert (descending key) x l).
Proof.
  induction 1 as [|y l Hl IH Hy]; simpl.
  - by repeat constructor.
  - unfold descending at 1. destruct (Z.leb_spec (key y - key x) 0).
    + constructor; [by constructor|]. constructor. lia.
    + constructor; [done|].
      destruct Hy as [|z l Hz]; simpl.
      * constructor. lia.
      * unfold descending. destruct (Z.leb_spec (key z - key x) 0); constructor; lia.
Qed.

Lemma sort_Sorted (l : list A) : Sorted (λ a b, (key b ≤ key a)%Z) (sort (descending key) l).
Proof.
  induction l as [|x l IH]; simpl; [constructor|]. by apply sort_insert_Sorted.
Qed.

Lemma sort_insert_stable (z : Z) (x : A) (l : list A) :
  filter (λ a, key a = z) (sort_insert (descending key) x l) = filter (λ a, key a = z) (x :: l).
Proof.
  induction l as [|y l IH]; simpl; [done|].
  unfold descending at 1. destruct (Z.leb_spec (key y - key x) 0); [done|].
  rewrite filter_cons, IH, !filter_cons.
  repeat case_decide; done || lia.
Qed.

Lemma sort_stable (z : Z) (l : list A) :
  filter (λ a, key a = z) (sort (descending key) l) = filter (λ a, key a = z) l.
Proof.
  induction l as [|x l IH]; simpl; [done|].
  by rewrite sort_insert_stable, !filter_cons, IH.
Qed.


End SortByKey.

Lemma byTimestampDesc_descending : byTimestampDesc = descending Task.timestamp.
Proof. reflexivity. Qed.

Lemma sort_stably_sorted (l : list Task) : stably_sorted_desc l (sort byTimestampDesc l).
Proof.
  rewrite byTimestampDesc_descending. split; [|split].
  - apply sort_Permutation.
  - apply sort_Sorted.
  - intros z. apply sort_stable.
Qed.

(** ** Lists *)

Lemma List_filter_filter {A : Type} (f : A → bool) (P : A → Prop) `{!∀ x, Decision (P x)}
    (l : list A) :
  (∀ x, f x = true ↔ P x) → List.filter f l = filter P l.
Proof.
  intros Hf. induction l as [|x l IH]; simpl; [done|].
  rewrite filter_cons, IH. destruct (f x) eqn:Hx.
  - rewrite decide_True; [done | by apply Hf].
  - rewrite decide_False; [done|]. rewrite <- Hf. congruence.
Qed.

Lemma elem_of_map {A B : Type} (f : A → B) (l : list A) (y : B) :
  y ∈ map f l ↔ ∃ x, y = f x ∧ x ∈ l.
Proof.
  rewrite list_elem_of_In, in_map_iff. setoid_rewrite list_elem_of_In. naive_solver.
Qed.

Lemma filter_nil_Forall {A : Type} (P : A → Prop) `{!∀ x, Decision (P x)} (l : list A) :
  filter P l = [] ↔ Forall (λ x, ¬ P x) l.
Proof.
  induction l as [|x l IH]; [by split; [constructor|]|].
  rewrite filter_cons, Forall_cons. case_decide; [|tauto].
  split; [done | tauto].
Qed.

Lemma filter_not_nil_Exists {A : Type} (P : A → Prop) `{!∀ x, Decision (P x)} (l : list A) :
  filter P l ≠ [] ↔ Exists P l.
Proof.
  induction l as [|x l IH]; [by rewrite Exists_nil|].
  rewrite filter_cons, Exists_cons. case_decide; [|tauto].
  split; [by left | done].
Qed.


Lemma find_Some_first {A : Type} (f : A → bool) (l : list A) (x : A) :
  find f l = Some x →
  ∃ before after, l = before ++ x :: after ∧ f x = true ∧ ∀ y, y ∈ before → f y = false.
Proof.
  induction l as [|y l IH]; simpl; [done|].
  destruct (f y) eqn:Hy.
  - intros [= ->]. exists [], l. split; [done|]. split; [done|].
    intros z Hz. by apply elem_of_nil in Hz.
  - intros (before & after & -> & Hx & Hb)%IH.
    exists (y :: before), after. split; [done|]. split; [done|].
    intros z [->|Hz]%elem_of_cons; [done | by apply Hb].
Qed.

Lemma find_None_all {A : Type} (f : A → bool) (l : list A) :
  find f l = None → ∀ y, y ∈ l → f y = false.
Proof. intros Hf y Hy. apply (find_none f l Hf). by apply list_elem_of_In. Qed.

(** ** The updater, by cases on whether the poll brought a new id *)

Lemma newTasks_new_in (prevTasks data : list Task) :
  List.filter
    (λ t, negb (bool_decide (Task.id t ∈ (list_to_set (map Task.id prevTasks) : gset string))))
    data
  = new_in prevTasks data.
Proof.
  apply List_filter_filter. intros t.
  by rewrite negb_true_iff, bool_decide_eq_false, elem_of_list_to_set.
Qed.

Lemma reconcile_no_new (current incoming : list Task) :
  new_in current incoming = [] →
  reconcile current incoming = sort byTimestampDesc (map (refresh incoming) current).
Proof. intros Hnew. unfold reconcile. by rewrite newTasks_new_in, Hnew. Qed.

Lemma reconcile_new (current incoming : list Task) :
  new_in current incoming ≠ [] →
  reconcile current incoming = sort byTimestampDesc (new_in current incoming ++ current).
Proof.
  intros Hnew. unfold reconcile. rewrite newTasks_new_in.
  by destruct (new_in current incoming).
Qed.

Lemma new_in_nil (current incoming : list Task) :
  new_in current incoming = [] ↔ Forall (λ t, Task.id t ∈ map Task.id current) incoming.
Proof.
  unfold new_in. rewrite filter_nil_Forall. apply Forall_proper; [|done].
  intros t. split; [apply dec_stable | by intros ? ?].
Qed.

Lemma new_in_not_nil (current incoming : list Task) :
  new_in current incoming ≠ [] ↔ Exists (λ t, Task.id t ∉ map Task.id current) incoming.
Proof. apply filter_not_nil_Exists. Qed.

(** ** Refreshing a held task *)

Lemma refresh_id (data : list Task) (c : Task) : Task.id (refresh data c) = Task.id c.
Proof. unfold refresh. by destruct (find _ data). Qed.

Lemma refresh_refreshed (incoming : list Task) (c : Task) :
  refreshed incoming c (refresh incoming c).
Proof.
  unfold refreshed, refresh.
  destruct (find _ incoming) as [t|] eqn:Hfind; simpl.
  - repeat split. left.
    apply find_Some_first in Hfind as (before & after & -> & Ht & Hb).
    exists before, t, after. split; [done|].
    split; [by apply String.eqb_eq|]. split; [|done].
    intros t' Ht'. apply String.eqb_neq. by apply Hb.
  - repeat split. right. split; [|done].
    intros t Ht. apply String.eqb_neq. by apply (find_None_all _ _ Hfind).
Qed.


Lemma map_id_refresh (data l : list Task) :
  map Task.id (map (refresh data) l) = map Task.id l.
Proof. rewrite map_map. apply map_ext. intros c. apply refresh_id. Qed.

(** ** The ids of the reconciled list *)

Lemma map_id_new_in (current incoming : list Task) :
  map Task.id (new_in current incoming)
  = filter (λ i, i ∉ map Task.id current) (map Task.id incoming).
Proof.
  unfold new_in. induction incoming as [|t incoming IH]; simpl; [done|].
  rewrite !filter_cons. case_decide; simpl; by rewrite IH.
Qed.

Lemma reconcile_ids_Permutation (current incoming : list Task) :
  map Task.id (reconcile current incoming)
  ≡ₚ map Task.id current ++ map Task.id (new_in current incoming).
Proof.
  destruct (decide (new_in current incoming = [])) as [Hnew|Hnew].
  - rewrite reconcile_no_new, Hnew by done. simpl. rewrite app_nil_r.
    rewrite byTimestampDesc_descending, sort_Permutation. by rewrite map_id_refresh.
  - rewrite reconcile_new by done.
    rewrite byTimestampDesc_descending, sort_Permutation, map_app.
    apply Permutation_app_comm.
Qed.


(** ** Fixed points of the updater *)



(** ** The claims on the task list *)

(** C4: when every incoming id already occurs in the held list, the
    reconciled list is the held list, each task with its id and first
    message and with the timestamp of its match in the incoming list (the
    first one) or its own when it has none, stably sorted by descending
    timestamp; when the incoming list has ids the held list lacks, it is
    those new tasks followed by the whole held list, stably sorted by
    descending timestamp.  An empty poll leaves [{id: 1, ts: 10}] as it
    is. *)
Theorem reconcile_merges (current incoming : list Task) :
  (Forall (λ t, Task.id t ∈ map Task.id current) incoming →
   ∃ updated, Forall2 (refreshed incoming) current updated
              ∧ stably_sorted_desc updated (reconcile current incoming))
  ∧ (Exists (λ t, Task.id t ∉ map Task.id current) incoming →
     stably_sorted_desc (new_in current incoming ++ current) (reconcile current incoming))
  ∧ reconcile [task "1" 10] [] = [task "1" 10]
  ∧ reconcile [task "1" 10] [task "1" 20] = [task "1" 20]
  ∧ reconcile [task "1" 10] [task "2" 30; task "1" 10] = [task "2" 30; task "1" 10].
Proof.
  split; [|split; [|by vm_compute]].
  - intros Hknown%new_in_nil. exists (map (refresh incoming) current). split.
    + clear Hknown. induction current as [|c current IH]; simpl; constructor; [|done].
      apply refresh_refreshed.
    + rewrite reconcile_no_new by done. apply sort_stably_sorted.
  - intros Hnew%new_in_not_nil. rewrite reconcile_new by done. apply sort_stably_sorted.
Qed.

Lemma reconcile_merges_witness :
  (∃ updated,
     Forall2 (refreshed [task "3" 70; task "1" 10])
       [task "1" 10; task "3" 10; task "4" 50] updated
     ∧ stably_sorted_desc updated
         (reconcile [task "1" 10; task "3" 10; task "4" 50] [task "3" 70; task "1" 10]))
  ∧ stably_sorted_desc
      (new_in [task "1" 10] [task "2" 30; task "1" 20] ++ [task "1" 10])
      (reconcile [task "1" 10] [task "2" 30; task "1" 20]).
Proof.
  split.
  - apply (proj1 (reconcile_merges [task "1" 10; task "3" 10; task "4" 50]
                    [task "3" 70; task "1" 10])).
    repeat constructor; simpl; set_solver.
  - apply (proj1 (proj2 (reconcile_merges [task "1" 10] [task "2" 30; task "1" 20]))).
    apply Exists_cons_hd. simpl. set_solver.
Defined.

(** C10: when the ids of the held list are pairwise distinct and so are
    those of the incoming list, the ids of the reconciled list are those of
    the held list together with the incoming ids that the held list lacks,
    each exactly once. *)
Theorem reconcile_ids (current incoming : list Task) :
  NoDup (map Task.id current) → NoDup (map Task.id incoming) →
  map Task.id (reconcile current incoming)
  ≡ₚ map Task.id current ++ filter (λ i, i ∉ map Task.id current) (map Task.id incoming)
  ∧ NoDup (map Task.id (reconcile current incoming)).
Proof.
  intros Hcurrent Hincoming.
  assert (Hperm := reconcile_ids_Permutation current incoming).
  rewrite map_id_new_in in Hperm. split; [done|].
  rewrite Hperm. apply NoDup_app. split; [done|]. split.
  - intros i Hi [Hout _]%list_elem_of_filter. done.
  - by apply NoDup_filter.
Qed.

Lemma reconcile_ids_witness :
  map Task.id (reconcile [task "1" 10; task "4" 50] [task "2" 30; task "1" 20])
  ≡ₚ map Task.id [task "1" 10; task "4" 50]
     ++ filter (λ i, i ∉ map Task.id [task "1" 10; task "4" 50])
          (map Task.id [task "2" 30; task "1" 20])
  ∧ NoDup (map Task.id (reconcile [task "1" 10; task "4" 50] [task "2" 30; task "1" 20])).
Proof.
  apply (reconcile_ids [task "1" 10; task "4" 50] [task "2" 30; task "1" 20]).
  - simpl. repeat constructor; set_solver.
  - simpl. repeat constructor; set_solver.
Defined.




(** ** The polls *)

(** C8: when the fetch of a background poll, of the conversation or of the
    task list, throws or is answered with a non-success status (or with a
    body that does not parse), settling it leaves the whole state of the
    component as it was, the held conversation, the held task list and the
    error message included; and no outcome of a poll changes the error
    message. *)
Theorem failed_poll_keeps_state (w : World) (n : nat) :
  (∀ source taskId (r : Fetched (list Message)),
     pending w !! n = Some (ConversationPoll source taskId) → failed r →
     step w (ConversationSettle n r)
     = Some {| state := state w; pending := delete n (pending w) |})
  ∧ (∀ source (r : Fetched (list Task)),
       pending w !! n = Some (TasksPoll source) → failed r →
       step w (TasksSettle n r)
       = Some {| state := state w; pending := delete n (pending w) |})
  ∧ (∀ (r : Fetched (list Message)) st, error (conversationPoll_resume r st) = error st)
  ∧ (∀ (r : Fetched (list Task)) st, error (tasksPoll_resume r st) = error st).
Proof.
  split; [|split; [|split]].
  - intros source taskId r Hn Hr. simpl. rewrite Hn.
    destruct r as [|status body]; simpl in *; [done|].
    destruct Hr as [-> | ->]; [done | by destruct (ok status)].
  - intros source r Hn Hr. simpl. rewrite Hn.
    destruct r as [|status body]; simpl in *; [done|].
    destruct Hr as [-> | ->]; [done | by destruct (ok status)].
  - intros [|status [data|]] st; simpl; [done | by destruct (ok status) ..].
  - intros [|status [data|]] st; simpl; [done | by destruct (ok status) ..].
Qed.

Lemma failed_poll_keeps_state_witness :
  step polling_X (ConversationSettle 0 (Responded 500 None))
  = Some {| state := state polling_X; pending := delete 0%nat (pending polling_X) |}
  ∧ step polling_X (TasksSettle 1 Rejected)
    = Some {| state := state polling_X; pending := delete 1%nat (pending polling_X) |}.
Proof.
  split.
  - apply (proj1 (failed_poll_keeps_state polling_X 0) nightly "X" (Responded 500 None));
      [reflexivity | by left].
  - apply (proj1 (proj2 (failed_poll_keeps_state polling_X 1)) nightly Rejected);
      reflexivity.
Defined.

(** C5 does not hold of the code: the answer to a fetch for X that was
    under way when the selection changed is applied when it arrives.  After
    [stale_poll] the selected task is Y and the held conversation is the
    one of X; after [stale_load] no task is selected and the conversation
    of X is held. *)
Theorem stale_response_applied :
  (∃ w, run (mount nightly) stale_poll = Some w
        ∧ selectedTask (state w) = Some "Y"
        ∧ conversation (state w) = Some conversation_X)
  ∧ (∃ w, run (mount nightly) stale_load = Some w
          ∧ selectedTask (state w) = None
          ∧ conversation (state w) = Some conversation_X).
Proof. split; eexists; by vm_compute. Qed.

End AppProofs.

(** * Properties of what the markup reads *)
Module RenderingProofs.
Import Js ConversationView Rendering Spec Samples Scenarios.
Import ConversationViewProofs ToolPairingProofs.

(** ** Filtering twice *)

Lemma superseded_mono (l1 l2 : list Message) (m : Message) :
  (∀ s, s ∈ l1 → s ∈ l2) → superseded l1 m → superseded l2 m.
Proof. unfold superseded. naive_solver. Qed.

Lemma List_filter_all {A : Type} (f : A → bool) (l : list A) :
  List.filter f l = l ↔ ∀ x, x ∈ l → f x = true.
Proof.
  split.
  - intros Hl x Hx. rewrite <- Hl in Hx. by apply elem_of_List_filter in Hx as [_ ?].
  - induction l as [|x l IH]; intros Hf; simpl; [done|].
    rewrite Hf by left. rewrite IH; [done|]. intros y Hy. apply Hf. by right.
Qed.

Lemma List_filter_none {A : Type} (f : A → bool) (l : list A) :
  List.filter f l = [] ↔ ∀ x, x ∈ l → f x = false.
Proof.
  induction l as [|x l IH]; simpl.
  - split; [|done]. intros _ x Hx. by apply elem_of_nil in Hx.
  - destruct (f x) eqn:Hx.
    + split; [done|]. intros Hf. specialize (Hf x). rewrite Hx in Hf.
      discriminate Hf. by left.
    + rewrite IH. split.
      * intros Hf y [->|Hy]%elem_of_cons; [done | by apply Hf].
      * intros Hf y Hy. apply Hf. by right.
Qed.

Lemma shown_filtered (messages : list Message) (m : Message) :
  m ∈ filteredMessages true messages → shown (filteredMessages true messages) m = true.
Proof.
  rewrite filteredMessages_on. intros [Hm Hshown]%elem_of_List_filter.
  apply shown_not_superseded. intros Hsup.
  apply shown_not_superseded in Hshown. apply Hshown.
  eapply superseded_mono; [|exact Hsup].
  intros s Hs. by apply elem_of_List_filter in Hs as [? _].
Qed.

(** X1: filtering a filtered sequence changes nothing, and the hidden count
    of a filtered sequence is zero: the messages the filter keeps name no
    marker that is still there. *)
Theorem filteredMessages_idempotent (messages : list Message) (filterCondensed : bool) :
  filteredMessages filterCondensed (filteredMessages filterCondensed messages)
  = filteredMessages filterCondensed messages
  ∧ hiddenCount (filteredMessages true messages) = 0%nat.
Proof.
  split.
  - destruct filterCondensed; [|reflexivity].
    rewrite (filteredMessages_on (filteredMessages true messages)).
    apply List_filter_all. apply shown_filtered.
  - rewrite hiddenCount_counted.
    assert (Hnone : List.filter (counted (filteredMessages true messages))
                      (filteredMessages true messages) = []); [|by rewrite Hnone].
    apply List_filter_none. intros m Hm.
    apply shown_filtered in Hm. rewrite shown_counted in Hm.
    by destruct (counted _ m).
Qed.

(** X2: the button that toggles the filter is left out exactly when the
    filter, which starts switched on, hides nothing: without the button
    every message is shown, with it at least one is hidden. *)
Theorem toggle_rendered_iff_filter_hides (messages : list Message) :
  (toggleRendered messages = false ↔ filteredMessages true messages = messages)
  ∧ (toggleRendered messages = true ↔
     (List.length (filteredMessages true messages) < List.length messages)%nat).
Proof.
  assert (Hsum : (hiddenCount messages + List.length (filteredMessages true messages)
                  = List.length messages)%nat).
  { rewrite hiddenCount_counted, filteredMessages_on.
    rewrite <- (length_List_filter_negb (counted messages) messages).
    f_equal. f_equal. apply filter_ext. intros m. apply shown_counted. }
  unfold toggleRendered. split.
  - rewrite Nat.ltb_ge. split.
    + intros Hzero. rewrite filteredMessages_on. apply List_filter_all. intros m Hm.
      assert (Hnone : List.filter (counted messages) messages = []).
      { apply length_zero_iff_nil. rewrite <- hiddenCount_counted. lia. }
      rewrite shown_counted. by rewrite (proj1 (List_filter_none _ _) Hnone m Hm).
    + intros Hsame. rewrite Hsame in Hsum. lia.
  - rewrite Nat.ltb_lt. lia.
Qed.

(** ** The blocks flagged for a missing result *)

Lemma normalized_unique (messages : list Message) (c1 c2 : list (list ContentBlock)) :
  normalized messages c1 → normalized messages c2 → c1 = c2.
Proof.
  intros H1 H2. eapply Forall2_unique; [exact H1 | exact H2 |].
  simpl. intros m b1 b2 Hb1 Hb2. congruence.
Qed.

Lemma hasMissingResult_true (missingResults : gset string) (b : ContentBlock) :
  hasMissingResult missingResults b = true ↔
  ∃ x, ContentBlock.type b = "tool_use" ∧ ContentBlock.id b = Some x
       ∧ x ≠ "" ∧ x ∈ missingResults.
Proof.
  unfold hasMissingResult. destruct (ContentBlock.id b) as [x|]; [|naive_solver].
  destruct (String.eqb_spec (ContentBlock.type b) "tool_use");
    destruct (String.eqb_spec x ""); simpl;
    rewrite ?bool_decide_eq_true; naive_solver.
Qed.

Lemma missing_scan (messages : list Message) (missingResults : gset string)
    (conversation : list (list ContentBlock)) :
  toolUsesMissingResults messages = Ok missingResults →
  normalized messages conversation →
  ∀ x, x ∈ missingResults ↔ missing conversation x.
Proof.
  intros Hres Hnorm. pose proof (toolUsesMissingResults_scan messages) as Hscan.
  rewrite Hres in Hscan. destruct Hscan as (conversation' & Hnorm' & Hiff).
  by rewrite (normalized_unique _ _ _ Hnorm Hnorm').
Qed.

(** X3: a block is flagged exactly when it is a [tool_use] block whose id
    is in the missing-result set, so all the blocks that share a flagged id
    are flagged alike; and no block of the last message is ever flagged,
    not even one whose id is also carried, unanswered, by an earlier
    message. *)
Theorem last_message_never_flagged (messages : list Message)
    (missingResults : gset string) (conversation : list (list ContentBlock)) :
  toolUsesMissingResults messages = Ok missingResults →
  normalized messages conversation →
  (∀ b, hasMissingResult missingResults b = true ↔
        ∃ x, ContentBlock.type b = "tool_use" ∧ ContentBlock.id b = Some x
             ∧ missing conversation x)
  ∧ (∀ i j blocks b,
       conversation !! i = Some blocks → blocks !! j = Some b →
       (i + 1 = List.length conversation)%nat →
       hasMissingResult missingResults b = false).
Proof.
  intros Hres Hnorm. pose proof (missing_scan _ _ _ Hres Hnorm) as Hiff. split.
  - intros b. rewrite hasMissingResult_true. split.
    + intros (x & Hty & Hid & _ & Hx). exists x. by rewrite <- Hiff.
    + intros (x & Hty & Hid & Hx). exists x. rewrite Hiff.
      split; [done|]. split; [done|]. split; [by destruct Hx | done].
  - intros i j blocks b Hi Hj Hlast.
    destruct (hasMissingResult missingResults b) eqn:Hflag; [|done].
    apply hasMissingResult_true in Hflag as (x & Hty & Hid & _ & Hx).
    apply Hiff in Hx as (_ & (i' & j' & [_ Hmax] & Hlt) & _).
    assert (Huse : use_at conversation i j x) by (by exists blocks, b).
    apply Hmax in Huse. lia.
Qed.

Lemma last_message_never_flagged_witness :
  ∃ missingResults,
    toolUsesMissingResults repeated_call = Ok missingResults
    ∧ hasMissingResult missingResults (tool_use (Some "t1")) = false
    ∧ hasMissingResult missingResults (tool_use (Some "t2")) = true.
Proof.
  assert (Hres : toolUsesMissingResults repeated_call = Ok {["t2"]}) by by vm_compute.
  assert (Hnorm : normalized repeated_call repeated_call_blocks) by by repeat constructor.
  exists {["t2"]}. split; [exact Hres|]. split.
  - exact (proj2 (last_message_never_flagged _ _ _ Hres Hnorm) 2%nat 0%nat
             [tool_use (Some "t1")] (tool_use (Some "t1")) eq_refl eq_refl eq_refl).
  - by vm_compute.
Defined.

(** X4: a conversation of at most one message flags nothing, whatever it
    holds: there is no message after the first. *)
Theorem short_conversation_flags_nothing (messages : list Message)
    (missingResults : gset string) :
  toolUsesMissingResults messages = Ok missingResults →
  (List.length messages ≤ 1)%nat →
  missingResults = ∅.
Proof.
  intros Hres Hlen. pose proof (toolUsesMissingResults_scan messages) as Hscan.
  rewrite Hres in Hscan. destruct Hscan as (conversation & Hnorm & Hiff).
  apply set_eq. intros x. rewrite Hiff, elem_of_empty. split; [|done].
  intros (_ & (i & j & _ & Hlt) & _).
  rewrite <- (Forall2_length _ _ _ Hnorm) in Hlt. lia.
Qed.

Lemma short_conversation_flags_nothing_witness :
  ∃ missingResults,
    toolUsesMissingResults lone_call = Ok missingResults ∧ missingResults = ∅.
Proof.
  assert (Hres : toolUsesMissingResults lone_call = Ok ∅) by by vm_compute.
  exists ∅. split; [exact Hres|].
  apply (short_conversation_flags_nothing lone_call ∅ Hres). simpl. lia.
Defined.

Lemma String_raises (v : Other) : (∃ e, String_ v = Throw e) ↔ own_toString v.
Proof.
  destruct v as [| |[]|shown|props]; simpl; try naive_solver.
  unfold hasOwn. destruct (existsb _ props) eqn:Hp; simpl.
  - apply existsb_exists in Hp as ([k j] & Hin & Hk%String.eqb_eq).
    simpl in Hk. subst k. apply list_elem_of_In in Hin. naive_solver.
  - split; [naive_solver|]. intros (j & Hin). exfalso.
    assert (Hex : existsb (λ p, String.eqb p.1 "toString") props = true);
      [|congruence].
    apply existsb_exists. exists ("toString", j).
    split; [by apply list_elem_of_In | done].
Qed.

(** A loop whose callback raises on certain elements, whatever the state
    and the index, raises exactly when the array holds one of them. *)
Lemma forEachM_from_raises {A St : Type} (f : St → A → nat → Exc St) (bad : A → Prop)
    (l : list A) (i : nat) (s : St) :
  (∀ s x i, (∃ e, f s x i = Throw e) ↔ bad x) →
  (∃ e, forEachM_from f i l s = Throw e) ↔ ∃ x, x ∈ l ∧ bad x.
Proof.
  intros Hbad. revert i s. induction l as [|x l IH]; intros i s; simpl.
  - split; [by intros [e He] | by intros (x & Hx%elem_of_nil & _)].
  - destruct (f s x i) as [s'|e] eqn:Hf; simpl.
    + rewrite IH. assert (Hx : ¬ bad x).
      { intros Hx. apply (Hbad s x i) in Hx as [e He]. congruence. }
      setoid_rewrite elem_of_cons. naive_solver.
    + split; [|eauto]. intros _. exists x. split; [left|].
      apply (Hbad s x i). eauto.
Qed.

Lemma visitElement_raises (messageIndex : nat) (acc : Scan) (element : Parsed.Element)
    (blockIndex : nat) :
  (∃ e, Parsed.visitElement messageIndex acc element blockIndex = Throw e)
  ↔ element = Parsed.ENull.
Proof. destruct element; simpl; naive_solver. Qed.

Lemma visitMessage_raises (acc : Scan) (content : Parsed.Content) (messageIndex : nat) :
  (∃ e, Parsed.visitMessage acc content messageIndex = Throw e) ↔ raising content.
Proof.
  unfold Parsed.visitMessage, raising. destruct content as [s|elements|v]; simpl.
  - split; [|naive_solver]. by intros [e He].
  - unfold forEachM.
    rewrite (forEachM_from_raises _ (λ element, element = Parsed.ENull))
      by (intros; apply visitElement_raises).
    naive_solver.
  - pose proof (String_raises v) as Hv. destruct (String_ v) as [s|e]; simpl.
    + split; [by intros [e He]|].
      intros [(elements & [=] & _)|(v' & [= <-] & Hown)].
      apply Hv in Hown as [e He]. discriminate He.
    + split; [|eauto]. intros _. right. exists v. split; [done|]. apply Hv. eauto.
Qed.

(** On a conversation of the declared type the scan of the parsed
    conversation is the scan of [ConversationView]. *)
Lemma forEachM_from_EBlock (messageIndex : nat) (blocks : list ContentBlock) (i : nat) (acc : Scan) :
  forEachM_from (Parsed.visitElement messageIndex) i (map Parsed.EBlock blocks) acc
  = Ok (forEach_from (visitBlock messageIndex) i blocks acc).
Proof.
  revert i acc. induction blocks as [|block blocks IH]; intros i acc; simpl; [done|].
  apply IH.
Qed.

Lemma visitMessage_declared (acc : Scan) (message : Message) (messageIndex : nat) :
  Parsed.visitMessage acc (Parsed.declared (Message.content message)) messageIndex
  = visitMessage acc message messageIndex.
Proof.
  unfold Parsed.visitMessage, visitMessage.
  destruct (Message.content message) as [s|blocks|v]; simpl; [done | |].
  - apply forEachM_from_EBlock.
  - by destruct (String_ v).
Qed.

Lemma scanMessages_declared (messages : list Message) (i : nat) (acc : Scan) :
  forEachM_from Parsed.visitMessage i
    (map (λ m, Parsed.declared (Message.content m)) messages) acc
  = forEachM_from visitMessage i messages acc.
Proof.
  revert i acc. induction messages as [|m messages IH]; intros i acc; simpl; [done|].
  rewrite visitMessage_declared. destruct (visitMessage acc m i); simpl; [apply IH | done].
Qed.

Lemma toolUsesMissingResults_declared (messages : list Message) :
  Parsed.toolUsesMissingResults (map (λ m, Parsed.declared (Message.content m)) messages)
  = toolUsesMissingResults messages.
Proof.
  unfold Parsed.toolUsesMissingResults, toolUsesMissingResults.
  unfold Parsed.scanMessages, scanMessages, forEachM.
  by rewrite length_map, scanMessages_declared.
Qed.

(** X5: for a conversation as parsed, computing the missing-result set
    raises exactly when the content of some message is an array that holds
    [null], or is neither a string nor an array and is an object with an
    own [toString] property; otherwise it returns a set.  On a conversation
    of the declared type it is the computation of [ConversationView]. *)
Theorem toolUsesMissingResults_raises_iff :
  (∀ contents : list Parsed.Content,
     ((∃ e, Parsed.toolUsesMissingResults contents = Throw e)
      ↔ ∃ content, content ∈ contents ∧ raising content)
     ∧ ((∃ missingResults, Parsed.toolUsesMissingResults contents = Ok missingResults)
        ↔ ∀ content, content ∈ contents → ¬ raising content))
  ∧ ∀ messages : list Message,
      Parsed.toolUsesMissingResults (map (λ m, Parsed.declared (Message.content m)) messages)
      = toolUsesMissingResults messages.
Proof.
  split; [|apply toolUsesMissingResults_declared]. intros contents.
  assert (Hraises : (∃ e, Parsed.toolUsesMissingResults contents = Throw e)
                    ↔ ∃ content, content ∈ contents ∧ raising content).
  { unfold Parsed.toolUsesMissingResults, Parsed.scanMessages, forEachM.
    rewrite <- (forEachM_from_raises Parsed.visitMessage raising contents 0
                  {| toolResultIds := ∅; toolUsePositions := ∅ |})
      by (intros; apply visitMessage_raises).
    destruct (forEachM_from _ _ _ _) as [scan|e]; simpl; [|naive_solver].
    split; by intros [e He]. }
  split; [exact Hraises|].
  destruct (Parsed.toolUsesMissingResults contents) as [missingResults|e].
  - split; [|eauto]. intros _ content Hin Hbad.
    destruct (proj2 Hraises (ex_intro _ content (conj Hin Hbad))) as [e He].
    discriminate He.
  - split; [by intros [missingResults H]|]. intros Hnone. exfalso.
    destruct (proj1 Hraises (ex_intro _ e eq_refl)) as (content & Hin & Hbad).
    by apply (Hnone content).
Qed.

(** X13: in a conversation without a summary marker or a truncation
    marker nothing is hidden, whatever parent ids its messages carry. *)
Theorem no_marker_nothing_hidden (messages : list Message) :
  (∀ m, m ∈ messages → ¬ marker m) →
  filteredMessages true messages = messages ∧ hiddenCount messages = 0%nat.
Proof.
  intros Hnone.
  assert (Hcounted : ∀ m, m ∈ messages → counted messages m = false).
  { intros m _. destruct (counted messages m) eqn:Hm; [|done]. exfalso.
    apply counted_superseded in Hm.
    destruct Hm as [(p & s & _ & _ & Hs & Hsum & _) | (p & s & _ & _ & Hs & Htr & _)];
      apply (Hnone s Hs); [by left | by right]. }
  split.
  - rewrite filteredMessages_on. apply List_filter_all. intros m Hm.
    by rewrite shown_counted, (Hcounted m Hm).
  - rewrite hiddenCount_counted.
    by rewrite (proj2 (List_filter_none (counted messages) messages) Hcounted).
Qed.

Lemma no_marker_nothing_hidden_witness :
  filteredMessages true [sample_A; sample_B] = [sample_A; sample_B]
  ∧ hiddenCount [sample_A; sample_B] = 0%nat.
Proof.
  apply (no_marker_nothing_hidden [sample_A; sample_B]).
  intros m Hm [Hsum | Htr]; apply list_elem_of_In in Hm;
    destruct Hm as [<-|[<-|[]]]; discriminate.
Defined.

End RenderingProofs.

(** * Properties of the stored source *)
Module SettingsProofs.
Import App Settings.

(** X6: the source the selector stores is the source the next start
    restores, and any other stored value, or none, gives the nightly
    source. *)
Theorem getStoredSource_restores (source : Source) (stored : option string) :
  getStoredSource (Some (sourceValue source)) = source
  ∧ (stored ≠ Some "production" → getStoredSource stored = nightly).
Proof.
  split; [by destruct source|].
  intros Hne. destruct stored as [value|]; simpl; [|done].
  destruct (String.eqb_spec value "production"); [congruence | done].
Qed.

Lemma getStoredSource_restores_witness :
  getStoredSource (Some (sourceValue production)) = production
  ∧ getStoredSource (Some "Production") = nightly.
Proof.
  split.
  - exact (proj1 (getStoredSource_restores production None)).
  - apply (proj2 (getStoredSource_restores nightly (Some "Production"))). discriminate.
Defined.

End SettingsProofs.

(** * Properties of the server *)
Module ServerProofs.
Import Js App Server Spec RunSpec Samples Scenarios.
Import AppProofs.

(** ** The port search *)

Lemma tryPorts_spec (listens : Z → bool) (attempts : nat) (port : Z) (logged : list Z) :
  ∃ logged' outcome (k : Z),
    tryPorts listens attempts port logged = (logged', outcome)
    ∧ (0 ≤ k ≤ Z.of_nat attempts)%Z
    ∧ logged' = logged ++ seqZ port k
    ∧ (∀ q, (port ≤ q < port + k)%Z → validPort q = true ∧ listens q = false)
    ∧ match outcome with
      | Found found =>
          found = (port + k)%Z ∧ (k < Z.of_nat attempts)%Z
          ∧ validPort found = true ∧ listens found = true
      | BadPort => (k < Z.of_nat attempts)%Z ∧ validPort (port + k) = false
      | NoneAvailable => k = Z.of_nat attempts
      end.
Proof.
  revert port logged. induction attempts as [|attempts IH]; intros port logged.
  - exists logged, NoneAvailable, 0%Z. simpl.
    split; [done|]. split; [lia|]. split; [by rewrite app_nil_r|]. split; [lia | done].
  - cbn [tryPorts]. unfold isPortAvailable.
    destruct (validPort port) eqn:Hvalid; [destruct (listens port) eqn:Hport|].
    + exists logged, (Found port), 0%Z.
      split; [done|]. split; [lia|]. split; [by rewrite app_nil_r|]. split; [lia|].
      rewrite Z.add_0_r. split; [done|]. split; [lia | done].
    + destruct (IH (port + 1)%Z (logged ++ [port]))
        as (logged' & outcome & k & -> & Hk & -> & Hbelow & Hend).
      exists ((logged ++ [port]) ++ seqZ (port + 1) k), outcome, (k + 1)%Z.
      split; [done|]. split; [lia|]. split; [|split].
      * rewrite <- app_assoc. f_equal. simpl.
        rewrite (seqZ_cons port) by lia. f_equal. f_equal; lia.
      * intros q Hq. destruct (decide (q = port)) as [->|]; [done|]. apply Hbelow. lia.
      * destruct outcome as [found| |].
        -- destruct Hend as (-> & Hlt & Hfound). split; [lia|]. split; [lia | done].
        -- destruct Hend as [Hlt Hbad]. split; [lia|].
           by replace (port + (k + 1))%Z with (port + 1 + k)%Z by lia.
        -- lia.
    + exists logged, BadPort, 0%Z.
      split; [done|]. split; [lia|]. split; [by rewrite app_nil_r|]. split; [lia|].
      rewrite Z.add_0_r. split; [lia | done].
Qed.

(** X7: [findAvailablePort] probes the ports from [startPort] upwards, at
    most ten of them, and logs each one it finds in use.  It returns the
    first port that listens, so the lowest available one; it raises the
    [RangeError] of [server.listen] when it comes to a port outside 0..65535
    before that; it throws its own error exactly when all ten ports are
    valid and in use.  From a start port in 0..65526 no [RangeError] is
    raised. *)
Theorem findAvailablePort_lowest (listens : Z → bool) (startPort : Z) :
  ∃ logged outcome (k : Z),
    findAvailablePort listens startPort = (logged, outcome)
    ∧ (0 ≤ k ≤ 10)%Z
    ∧ logged = seqZ startPort k
    ∧ (∀ q, (startPort ≤ q < startPort + k)%Z → validPort q = true ∧ listens q = false)
    ∧ match outcome with
      | Found found =>
          found = (startPort + k)%Z ∧ (k < 10)%Z
          ∧ validPort found = true ∧ listens found = true
      | BadPort => (k < 10)%Z ∧ validPort (startPort + k) = false
      | NoneAvailable => k = 10%Z
      end
    ∧ ((0 ≤ startPort ≤ 65526)%Z → outcome ≠ BadPort).
Proof.
  unfold findAvailablePort.
  destruct (tryPorts_spec listens MAX_PORT_ATTEMPTS startPort [])
    as (logged & outcome & k & Hrun & Hk & Hlogged & Hbelow & Hend).
  change (Z.of_nat MAX_PORT_ATTEMPTS) with 10%Z in *.
  exists logged, outcome, k.
  split; [done|]. split; [done|]. split; [done|]. split; [done|]. split; [done|].
  intros Hstart ->. destruct Hend as [Hlt Hbad].
  unfold validPort in Hbad. apply andb_false_iff in Hbad as [Hbad|Hbad]; lia.
Qed.

(** ** The task listing *)

Lemma length_slice_to (n : nat) (s : string) : (String.length (slice_to n s) ≤ n)%nat.
Proof.
  revert s. induction n as [|n IH]; intros [|c s]; simpl; try lia.
  specialize (IH s). lia.
Qed.

Lemma scanForFirstMessage_bounded (firstMessage : string) (blocks : list ContentBlock) :
  (String.length firstMessage ≤ 200)%nat →
  (String.length (scanForFirstMessage firstMessage blocks) ≤ 200)%nat.
Proof.
  revert firstMessage. induction blocks as [|block blocks IH]; intros firstMessage Hlen;
    simpl; [done|].
  destruct (ConversationView.ContentBlock.text block) as [text|]; [|by apply IH].
  destruct (_ && _); [|by apply IH].
  assert (Hnew : (String.length
                    match matchTask text with
                    | Some inner => slice_to 200 (trim inner)
                    | None =>
                        if negb (includes text "<environment_details>")
                        then slice_to 200 text
                        else firstMessage
                    end ≤ 200)%nat).
  { destruct (matchTask text); [apply length_slice_to|].
    destruct (negb _); [apply length_slice_to | done]. }
  destruct (negb (String.eqb _ "")); [done | by apply IH].
Qed.

Lemma firstMessageOf_bounded (conversation : list Message) (firstMessage : string) :
  firstMessageOf conversation = Ok firstMessage →
  orPlaceholder firstMessage ≠ ""
  ∧ (String.length (orPlaceholder firstMessage) ≤ 200)%nat.
Proof.
  intros Hfirst. assert (Hlen : (String.length firstMessage ≤ 200)%nat).
  { destruct conversation as [|first rest]; simpl in Hfirst.
    - injection Hfirst as <-. simpl. lia.
    - destruct (ConversationView.Message.content first) as [text|blocks|v].
      + injection Hfirst as <-. simpl. lia.
      + injection Hfirst as <-. apply scanForFirstMessage_bounded. simpl. lia.
      + destruct (truthy_other v); [done|]. injection Hfirst as <-. simpl. lia. }
  unfold orPlaceholder. destruct (String.eqb_spec firstMessage "").
  - split; [done | simpl; lia].
  - done.
Qed.

(** X8: the preview of a task is never empty and never longer than 200
    characters, whatever the first message of its conversation holds. *)
Theorem preview_bounded (conversation : list Message) (firstMessage : string) :
  firstMessageOf conversation = Ok firstMessage →
  orPlaceholder firstMessage ≠ ""
  ∧ (String.length (orPlaceholder firstMessage) ≤ 200)%nat.
Proof. apply firstMessageOf_bounded. Qed.

Lemma preview_bounded_witness :
  orPlaceholder "fix the build" ≠ ""
  ∧ (String.length (orPlaceholder "fix the build") ≤ 200)%nat.
Proof. apply (preview_bounded wrapped_prompt "fix the build"). reflexivity. Defined.

Lemma taskOf_Some (dir : Dirent) (t : TaskInfo) :
  taskOf dir = Some t ↔
  isDirectory dir = true
  ∧ ∃ conversation firstMessage,
      history dir = Readable (Task.timestamp t) conversation
      ∧ firstMessageOf conversation = Ok firstMessage
      ∧ t = {| Task.id := name dir; Task.timestamp := Task.timestamp t;
               Task.firstMessage := orPlaceholder firstMessage |}.
Proof.
  unfold taskOf. destruct (isDirectory dir); simpl; [|naive_solver].
  destruct (history dir) as [|mtimeMs conversation]; [naive_solver|].
  destruct (firstMessageOf conversation) as [firstMessage|e] eqn:Hfirst.
  - split.
    + intros [= <-]. split; [done|]. exists conversation, firstMessage. done.
    + intros (_ & conversation' & firstMessage' & [= -> <-] & Hfirst' & ->).
      simpl. congruence.
  - split; [done|]. intros (_ & conversation' & firstMessage' & [= _ <-] & Hfirst' & _).
    congruence.
Qed.

Lemma taskOf_lists (dir : Dirent) (t : TaskInfo) : taskOf dir = Some t ↔ lists dir t.
Proof.
  rewrite taskOf_Some. unfold lists. split.
  - intros (Hisdir & conversation & firstMessage & Hhist & Hfirst & ->).
    split; [done|]. exists conversation, firstMessage. done.
  - intros (Hisdir & conversation & firstMessage & Hhist & Hfirst & Hid & Hmsg).
    split; [done|]. exists conversation, firstMessage. split; [done|]. split; [done|].
    destruct t as [id timestamp message]. simpl in *. by subst.
Qed.

Lemma omap_taskOf_lists (dirs : list Dirent) :
  Forall2 lists (List.filter (λ dir, bool_decide (is_Some (taskOf dir))) dirs)
    (omap taskOf dirs).
Proof.
  induction dirs as [|dir dirs IH]; simpl; [constructor|].
  destruct (taskOf dir) as [t|] eqn:Ht.
  - rewrite bool_decide_eq_true_2 by eauto. constructor; [by apply taskOf_lists | done].
  - rewrite bool_decide_eq_false_2; [done|]. by intros [t Ht'].
Qed.

(** X9: when the task folder can be listed, the route answers 200 with
    exactly one task for each entry that is a directory whose history file
    reads, parses and previews, and none for the other entries, which do
    not fail the request: the tasks pushed are those of the listed entries,
    one each and in the order of the folder, and the answer is that list
    stably sorted newest first.  Each preview is non-empty and at most 200
    characters long.  When the folder cannot be listed it answers 500. *)
Theorem tasksRoute_lists_readable (dirs : list Dirent) :
  (∃ tasks readable pushed,
     tasksRoute (Some dirs) = Responded 200 (Some tasks)
     ∧ Keeps listed dirs readable
     ∧ Forall2 lists readable pushed
     ∧ stably_sorted_desc pushed tasks
     ∧ (∀ t, t ∈ tasks → Task.firstMessage t ≠ ""
                         ∧ (String.length (Task.firstMessage t) ≤ 200)%nat))
  ∧ tasksRoute None = Responded 500 None.
Proof.
  split; [|reflexivity].
  exists (sort byTimestampDesc (omap taskOf dirs)),
         (List.filter (λ dir, bool_decide (is_Some (taskOf dir))) dirs),
         (omap taskOf dirs).
  split; [reflexivity|]. split; [|split; [|split]].
  - apply ConversationViewProofs.Keeps_List_filter. intros dir.
    rewrite bool_decide_eq_true. unfold listed, is_Some.
    by setoid_rewrite taskOf_lists.
  - apply omap_taskOf_lists.
  - apply sort_stably_sorted.
  - intros t Ht. rewrite byTimestampDesc_descending, sort_Permutation in Ht.
    apply list_elem_of_omap in Ht as (dir & _ & Hdir).
    apply taskOf_Some in Hdir as (_ & conversation & firstMessage & _ & Hfirst & ->).
    simpl. exact (firstMessageOf_bounded conversation firstMessage Hfirst).
Qed.

End ServerProofs.

(** * Properties of the runs of the component *)
Module RunProofs.
Import Js App Spec RunSpec Samples Scenarios.
Import AppProofs.

(** ** One load of a conversation at a time *)

Lemma loadsInFlight_issue (pending : list Request) (r : Request) :
  loadsInFlight (pending ++ [r])
  = (loadsInFlight pending + (if isConversationLoad r then 1 else 0))%nat.
Proof.
  unfold loadsInFlight. rewrite List.filter_app, length_app. simpl.
  by destruct (isConversationLoad r).
Qed.

Lemma loadsInFlight_settle (pending : list Request) (n : nat) (r : Request) :
  pending !! n = Some r →
  loadsInFlight pending
  = (loadsInFlight (delete n pending) + (if isConversationLoad r then 1 else 0))%nat.
Proof.
  intros Hn. rewrite delete_take_drop.
  rewrite <- (take_drop_middle pending n r Hn) at 1.
  unfold loadsInFlight. rewrite !List.filter_app, !length_app. simpl.
  destruct (isConversationLoad r); simpl; lia.
Qed.

Lemma step_one_load (w w' : World) (e : Event) :
  one_load w → step w e = Some w' → one_load w'.
Proof.
  unfold one_load. destruct w as [st pending]. intros Hinv Hstep.
  destruct e as [taskId|newSource| | | |n r|n r]; simpl in *.
  - unfold loadConversation_start in Hstep.
    destruct (loadingConversation st) eqn:Hloading; simplify_eq/=;
      rewrite ?loadsInFlight_issue, ?Hloading; simpl; lia.
  - destruct (Source_eqb newSource (source st)); simplify_eq/=;
      rewrite ?loadsInFlight_issue; simpl; lia.
  - destruct (conversation st); [|done].
    destruct (loadingConversation st) eqn:Hloading; by simplify_eq/=.
  - simplify_eq/=. rewrite loadsInFlight_issue. simpl. lia.
  - destruct (selectedTask st) as [taskId|]; [|done].
    destruct (String.eqb taskId ""); simplify_eq/=.
    rewrite loadsInFlight_issue. simpl. lia.
  - destruct (pending !! n) as [[source|source taskId|source|source taskId]|] eqn:Hn;
      simplify_eq/=;
      rewrite (loadsInFlight_settle _ _ _ Hn) in Hinv; simpl in Hinv;
      destruct r as [|status [data|]]; simpl; try destruct (ok status); simpl; lia.
  - destruct (pending !! n) as [[source|source taskId|source|source taskId]|] eqn:Hn;
      simplify_eq/=;
      rewrite (loadsInFlight_settle _ _ _ Hn) in Hinv; simpl in Hinv.
    + destruct r as [|status [data|]]; simpl; try destruct (ok status); simpl; lia.
    + assert (Hzero : loadsInFlight (delete n pending) = 0%nat)
        by (destruct (loadingConversation st); lia).
      unfold loadConversation_resume.
      destruct r as [|status body]; simpl; [done|].
      destruct (ok status); simpl.
      * by destruct body.
      * destruct (status =? 404)%nat; simpl; [|done].
        rewrite loadsInFlight_issue. simpl. lia.
Qed.

Lemma run_one_load (w w' : World) (events : list Event) :
  one_load w → run w events = Some w' → one_load w'.
Proof.
  revert w. induction events as [|e events IH]; intros w Hinv Hrun; simpl in Hrun.
  - by simplify_eq.
  - destruct (step w e) as [w1|] eqn:Hstep; [|done].
    eapply IH; [|exact Hrun]. by eapply step_one_load.
Qed.

(** X10: at any point of any run of the component, at most one call of
    [loadConversation] waits for its fetch, and [loadingConversation] is
    set exactly while one does. *)
Theorem one_conversation_load_at_a_time (stored : Source) (events : list Event) (w : World) :
  run (mount stored) events = Some w →
  loadsInFlight (pending w) = if loadingConversation (state w) then 1%nat else 0%nat.
Proof. intros Hrun. by apply (run_one_load (mount stored) w events). Qed.

Lemma one_conversation_load_at_a_time_witness :
  ∃ w, run (mount nightly) stale_poll = Some w
       ∧ loadsInFlight (pending w) = if loadingConversation (state w) then 1%nat else 0%nat.
Proof.
  eexists. split; [by vm_compute|].
  apply (one_conversation_load_at_a_time nightly stale_poll). by vm_compute.
Defined.

(** ** The held task list stays newest first *)

Lemma reconcile_newest_first (current incoming : list Task) :
  newest_first (reconcile current incoming).
Proof.
  unfold newest_first.
  destruct (decide (new_in current incoming = [])) as [Hnew|Hnew].
  - rewrite reconcile_no_new, byTimestampDesc_descending by done. apply sort_Sorted.
  - rewrite reconcile_new, byTimestampDesc_descending by done. apply sort_Sorted.
Qed.

Lemma step_newest_first (w w' : World) (e : Event) :
  newest_first (tasks (state w)) →
  loads_newest_first w [e] →
  step w e = Some w' →
  newest_first (tasks (state w')).
Proof.
  destruct w as [st pending]. intros Hinv [Hload _] Hstep.
  destruct e as [taskId|newSource| | | |n r|n r]; simpl in *.
  - unfold loadConversation_start in Hstep.
    destruct (loadingConversation st); by simplify_eq/=.
  - destruct (Source_eqb newSource (source st)); by simplify_eq/=.
  - destruct (conversation st); [|done].
    destruct (loadingConversation st); by simplify_eq/=.
  - by simplify_eq/=.
  - destruct (selectedTask st) as [taskId|]; [|done].
    destruct (String.eqb taskId ""); by simplify_eq/=.
  - destruct (pending !! n) as [[source|source taskId|source|source taskId]|] eqn:Hn;
      simplify_eq/=.
    + destruct r as [|status [data|]]; simpl; try done;
        destruct (ok status); simpl; try done. apply reconcile_newest_first.
    + destruct r as [|status [data|]]; simpl; try done.
      destruct (ok status); simpl; [by apply Hload | done].
  - destruct (pending !! n) as [[source|source taskId|source|source taskId]|] eqn:Hn;
      simplify_eq/=.
    + destruct r as [|status [data|]]; simpl; try done; by destruct (ok status).
    + unfold loadConversation_resume.
      destruct r as [|status body]; simpl; [done|].
      destruct (ok status); simpl; [by destruct body|].
      by destruct (status =? 404)%nat.
Qed.

Lemma run_newest_first (w w' : World) (events : list Event) :
  newest_first (tasks (state w)) →
  loads_newest_first w events →
  run w events = Some w' →
  newest_first (tasks (state w')).
Proof.
  revert w. induction events as [|e events IH]; intros w Hinv Hloads Hrun; simpl in Hrun.
  - by simplify_eq.
  - destruct (step w e) as [w1|] eqn:Hstep; [|done].
    destruct Hloads as [Hload Hrest]. rewrite Hstep in Hrest.
    eapply IH; [|exact Hrest|exact Hrun].
    eapply step_newest_first; [exact Hinv| |exact Hstep].
    split; [exact Hload | by rewrite Hstep].
Qed.

(** X11: as long as the lists that answer [loadTasks] come newest first, as
    the server sends them, the held task list is newest first at every
    point of every run, whatever the polls of the task list are answered
    with. *)
Theorem held_tasks_newest_first (stored : Source) (events : list Event) (w : World) :
  loads_newest_first (mount stored) events →
  run (mount stored) events = Some w →
  newest_first (tasks (state w)).
Proof.
  intros Hloads Hrun. apply (run_newest_first (mount stored) w events); [|done|done].
  constructor.
Qed.

Lemma held_tasks_newest_first_witness :
  ∃ w, run (mount nightly) deleted_task = Some w ∧ newest_first (tasks (state w)).
Proof.
  eexists. split; [by vm_compute|].
  apply (held_tasks_newest_first nightly deleted_task); [|by vm_compute].
  simpl. unfold newest_first. repeat split; try done.
  intros _. repeat constructor. simpl. lia.
Defined.

(** ** What a poll of the task list never loses *)

Lemma refresh_firstMessage (data : list Task) (c : Task) :
  Task.firstMessage (refresh data c) = Task.firstMessage c.
Proof. unfold refresh. by destruct (find _ data). Qed.

(** X14: whatever the two lists hold, duplicates included, the reconciled
    list has one task for each held task and each new incoming task, and
    every held task is still there with its id and its first message. *)
Theorem reconcile_keeps_held (current incoming : list Task) :
  List.length (reconcile current incoming)
  = (List.length current + List.length (new_in current incoming))%nat
  ∧ ∀ c, c ∈ current →
         ∃ u, u ∈ reconcile current incoming
              ∧ Task.id u = Task.id c ∧ Task.firstMessage u = Task.firstMessage c.
Proof.
  destruct (decide (new_in current incoming = [])) as [Hnew|Hnew].
  - rewrite reconcile_no_new, byTimestampDesc_descending by done.
    rewrite Hnew. split.
    + rewrite sort_Permutation, length_map. simpl. lia.
    + intros c Hc. exists (refresh incoming c). rewrite sort_Permutation.
      split; [apply elem_of_map; eauto|].
      split; [apply refresh_id | apply refresh_firstMessage].
  - rewrite reconcile_new, byTimestampDesc_descending by done. split.
    + rewrite sort_Permutation, length_app. lia.
    + intros c Hc. exists c. rewrite sort_Permutation, elem_of_app. eauto.
Qed.

(** ** How a load of a conversation fails *)

(** X12: when the fetch of [loadConversation] is answered 404, the
    selection and the conversation are cleared, the task list is loaded
    again, and the message set for it is overwritten at once, so that no
    error is shown; when it fails in any other way the message "Failed to
    load conversation" is shown, the selection is cleared, and the task
    list and the conversation are left as they were. *)
Theorem load_failure_outcomes (w : World) (n : nat) (source : Source) (taskId : string) :
  pending w !! n = Some (LoadConversation source taskId) →
  (∀ body, ∃ w',
     step w (ConversationSettle n (Responded 404 body)) = Some w'
     ∧ error (state w') = None
     ∧ selectedTask (state w') = None
     ∧ conversation (state w') = None
     ∧ loadingTasks (state w') = true
     ∧ loadingConversation (state w') = false
     ∧ tasks (state w') = tasks (state w)
     ∧ pending w' = delete n (pending w) ++ [LoadTasks source])
  ∧ (∀ r, failed r → (∀ body, r ≠ Responded 404 body) → ∃ w',
       step w (ConversationSettle n r) = Some w'
       ∧ error (state w') = Some "Failed to load conversation"
       ∧ selectedTask (state w') = None
       ∧ conversation (state w') = conversation (state w)
       ∧ loadingConversation (state w') = false
       ∧ tasks (state w') = tasks (state w)
       ∧ pending w' = delete n (pending w)).
Proof.
  intros Hn. split.
  - intros body. simpl. rewrite Hn. eexists. split; [reflexivity|]. by repeat split.
  - intros r Hr Hnot. simpl. rewrite Hn. unfold loadConversation_resume.
    destruct r as [|status body]; [eexists; split; [reflexivity|]; by repeat split|].
    destruct (ok status) eqn:Hok; simpl.
    + destruct Hr as [Hr | ->]; [congruence|].
      eexists. split; [reflexivity|]. by repeat split.
    + destruct (Nat.eqb_spec status 404) as [->|Hne]; [by destruct (Hnot body)|].
      eexists. split; [reflexivity|]. by repeat split.
Qed.

Lemma load_failure_outcomes_witness :
  (∃ w', step loading_X (ConversationSettle 1 (Responded 404 None)) = Some w'
         ∧ error (state w') = None
         ∧ selectedTask (state w') = None
         ∧ conversation (state w') = None
         ∧ loadingTasks (state w') = true
         ∧ loadingConversation (state w') = false
         ∧ tasks (state w') = tasks (state loading_X)
         ∧ pending w' = delete 1%nat (pending loading_X) ++ [LoadTasks nightly])
  ∧ (∃ w', step loading_X (ConversationSettle 1 (Responded 500 None)) = Some w'
           ∧ error (state w') = Some "Failed to load conversation"
           ∧ selectedTask (state w') = None
           ∧ conversation (state w') = conversation (state loading_X)
           ∧ loadingConversation (state w') = false
           ∧ tasks (state w') = tasks (state loading_X)
           ∧ pending w' = delete 1%nat (pending loading_X)).
Proof.
  split.
  - exact (proj1 (load_failure_outcomes loading_X 1 nightly "X" eq_refl) None).
  - apply (proj2 (load_failure_outcomes loading_X 1 nightly "X" eq_refl)
             (Responded 500 None)).
    + by left.
    + intros body. discriminate.
Defined.

End RunProofs.
